(** * deal.II linear algebra: block sparse matrix routing and numeric vector

    A shallow embedding of
    - [lac/trilinos_block_sparse_matrix.h]: the inline members of
      [TrilinosWrappers::BlockSparseMatrix] ([is_compressed], the
      single-element and the bulk [set]/[add]);
    - [lac/vector.h]: the class [Vector<Number>] with its inline element
      access.

    Conventions.
    - [unsigned int] indices and sizes are naturals. Every index the routing
      code computes is bounded by the length of an array that is passed in,
      so the arithmetic is the one of the source as long as the dense value
      block has fewer than 2^32 entries.
    - A failed [Assert] and an access past the end of an array are distinct
      results of a call ([Raise], [Undefined]); nothing is returned besides.
    - The block type and the number type are template parameters of the
      source; here they are type classes. *)

From Stdlib Require Import PrimFloat ZArith Uint63.
From stdpp Require Import base decidable option list.

(** ** Results of a call *)

(** The exceptions named in the two headers, and [ExcIndexRange],
    [ExcDimensionMismatch], [ExcInternalError] of the exception headers
    they include. *)
Inductive exception : Type :=
  | ExcInternalError
  | ExcIndexRange (i lo hi : nat)
  | ExcDimensionMismatch (n1 n2 : nat)
  | ExcDimensionsDontMatch (n1 n2 : nat)
  | ExcEmptyVector
  | ExcIncompatibleRowNumbers (i1 j1 i2 j2 : nat)
  | ExcIncompatibleColNumbers (i1 j1 i2 j2 : nat).

(** The arrays a call reads or writes by index. *)
Inductive array : Type :=
  | block_col_indices_array
  | local_row_length_array
  | local_col_indices_array
  | values_array
  | val_array.

Inductive outcome (A : Type) : Type :=
  | Ok (a : A)
  | Raise (e : exception)
  | Undefined (a : array).
Arguments Ok {A} a.
Arguments Raise {A} e.
Arguments Undefined {A} a.

#[global] Instance outcome_ret : MRet outcome := fun A a => Ok a.
#[global] Instance outcome_bind : MBind outcome := fun A B k c =>
  match c with
  | Ok a => k a
  | Raise e => Raise e
  | Undefined a => Undefined a
  end.

(** Modelled from the spec: the macro [Assert] of [base/exceptions.h] is not
    among the sources. Section 7 of the specification describes its checks as
    "precondition checks raised synchronously at the call that violates
    them"; this is the macro in a debug build, the build in which the
    [#ifdef DEBUG] blocks of the source are compiled as well. *)
Definition Assert (cond : bool) (exc : exception) : outcome unit :=
  if cond then Ok tt else Raise exc.

(** ** Arrays indexed by position *)

(** [a[i]] read and written on a [std::vector] or through a pointer: past
    the end the behaviour is undefined. *)
Definition load {A} (name : array) (a : list A) (i : nat) : outcome A :=
  match a !! i with
  | Some x => Ok x
  | None => Undefined name
  end.

Definition store {A} (name : array) (a : list A) (i : nat) (x : A)
  : outcome (list A) :=
  if bool_decide (i < length a) then Ok (<[i := x]> a) else Undefined name.

(** [&a[off]] handed to a callee that reads [len] elements from it. *)
Definition slice {A} (name : array) (a : list A) (off len : nat)
  : outcome (list A) :=
  if bool_decide (off + len <= length a)
  then Ok (take len (drop off a))
  else Undefined name.

(** [std::vector<unsigned int>::resize (n)]: keeps the first [n] elements
    and value-initialises the new ones. *)
Definition resize (n : nat) (a : list nat) : list nat :=
  take n a ++ replicate (n - length a) 0.

(** Reading a scratch entry outside a call (specification side only). *)
Definition get (a : list nat) (i : nat) : nat := default 0 (a !! i).

(** ** Block indices *)

Module BlockIndices.

(** Modelled from the spec: [BlockIndices] ([lac/block_indices.h]) is not
    among the sources. Section 3: "ordered sequence of block-row sizes,
    ordered sequence of block-column sizes (prefix sums give
    global-to-local mapping)". *)
Record t : Type := Build { block_sizes : list nat }.

Definition size (bi : t) : nat := length (block_sizes bi).

Definition total_size (bi : t) : nat := sum_list (block_sizes bi).

(** The block whose range of global indices holds [i], counted from [b],
    and the index of [i] in it. *)
Fixpoint locate (sizes : list nat) (b i : nat) : option (nat * nat) :=
  match sizes with
  | [] => None
  | s :: sizes' =>
      if bool_decide (i < s) then Some (b, i)
      else locate sizes' (S b) (i - s)
  end.

(** Modelled from the spec: an index past the total size is the
    "IndexOutOfRange" precondition violation of Section 7. *)
Definition global_to_local (bi : t) (i : nat) : outcome (nat * nat) :=
  match locate (block_sizes bi) 0 i with
  | Some p => Ok p
  | None => Raise (ExcIndexRange i 0 (total_size bi))
  end.

End BlockIndices.

(** ** The blocks *)

(** Modelled from the spec: [TrilinosWrappers::SparseMatrix]
    ([lac/trilinos_sparse_matrix.h]) is not among the sources. Section 6:
    the external collaborator "supplies per-block matrix and vector types
    with set, add, compress, isCompressed". The members the block matrix
    calls are the fields; a block is otherwise opaque. [sm_set_row] and
    [sm_add_row] are the calls [set (1, &row, n, cols, values)] and
    [add (1, &row, n, cols, values)] with their two arrays of [n]
    elements. *)
Class SparseMatrix (T B : Type) : Type := {
  sm_set : nat -> nat -> T -> B -> B;
  sm_add : nat -> nat -> T -> B -> B;
  sm_set_row : nat -> list nat -> list T -> B -> B;
  sm_add_row : nat -> list nat -> list T -> B -> B;
  sm_is_compressed : B -> bool
}.

(** Modelled from the spec: setting or adding a run of entries of one row
    is setting or adding them one after the other, left to right. *)
Class RowWise (T B : Type) `{SparseMatrix T B} : Prop := {
  sm_set_row_each : forall row cols values b,
    sm_set_row row cols values b =
    foldl (fun b' cv => sm_set row cv.1 cv.2 b') b (zip cols values);
  sm_add_row_each : forall row cols values b,
    sm_add_row row cols values b =
    foldl (fun b' cv => sm_add row cv.1 cv.2 b') b (zip cols values)
}.

(** Which of the two families of members a call belongs to. *)
Inductive operation : Type := SetValues | AddValues.

Definition element_op {T B} `{SparseMatrix T B} (o : operation)
  : nat -> nat -> T -> B -> B :=
  match o with SetValues => sm_set | AddValues => sm_add end.

Definition row_op {T B} `{SparseMatrix T B} (o : operation)
  : nat -> list nat -> list T -> B -> B :=
  match o with SetValues => sm_set_row | AddValues => sm_add_row end.

(** ** Dense matrices *)

(** Modelled from the spec: [FullMatrix] ([lac/full_matrix.h]) is not
    among the sources. Section 6: callers supply "a row-major value buffer
    (raw pointer/length triple or an equivalent dense-matrix view)": the
    numbers of rows [m ()] and of columns [n ()], and the entries row by
    row, [&values(0,0)] being the address of the first. *)
Record FullMatrix (T : Type) : Type := Build_FullMatrix {
  fm_m : nat;
  fm_n : nat;
  fm_entries : list T
}.
Arguments Build_FullMatrix {T} _ _ _.
Arguments fm_m {T} _.
Arguments fm_n {T} _.
Arguments fm_entries {T} _.

(** A full matrix holds [m () * n ()] entries. *)
Definition fm_wf {T} (a : FullMatrix T) : Prop :=
  length (fm_entries a) = fm_m a * fm_n a.

(** ** The block matrix *)

Module BlockSparseMatrix.

Section Members.

Context {T B : Type} `{SparseMatrix T B}.

(** The members of [BlockMatrixBase<SparseMatrix>] the inline functions
    use (the index tables and the table of blocks), and the three scratch
    vectors [BlockSparseMatrix] declares itself. *)
Record t : Type := Build {
  row_block_indices : BlockIndices.t;
  column_block_indices : BlockIndices.t;
  sub_objects : nat -> nat -> B;
  block_col_indices : list nat;
  local_row_length : list nat;
  local_col_indices : list nat
}.

(** Modelled from the spec: [n_block_rows], [n_block_cols] and [block] of
    [BlockMatrixBase] ([lac/block_matrix_base.h]) are not among the
    sources. Section 3: the router owns "a 2-D grid of opaque
    sparse-matrix-block handles" over the two sequences of block sizes. At
    every call below the block row comes from [global_to_local] or from a
    loop bounded by [n_block_rows], and likewise the block column. *)
Definition n_block_rows (m : t) : nat := BlockIndices.size (row_block_indices m).

Definition n_block_cols (m : t) : nat := BlockIndices.size (column_block_indices m).

Definition block (m : t) (row col : nat) : B := sub_objects m row col.

(** The table of blocks after a member [f] was called on block
    [(row, col)]. *)
Definition call_block (row col : nat) (f : B -> B) (grid : nat -> nat -> B)
  : nat -> nat -> B :=
  fun r c => if bool_decide (r = row /\ c = col) then f (grid r c) else grid r c.

(** The matrix with another table of blocks. *)
Definition with_blocks (m : t) (grid : nat -> nat -> B) : t :=
  Build (row_block_indices m) (column_block_indices m) grid
    (block_col_indices m) (local_row_length m) (local_col_indices m).

(** *** [is_compressed] (lines 732-746) *)

(** The inner loop from [col] on, [k] block columns left; [break] leaves
    it with [compressed = false]. *)
Fixpoint is_compressed_cols (m : t) (row col k : nat) (compressed : bool) : bool :=
  match k with
  | 0 => compressed
  | S k' =>
      if negb (sm_is_compressed (block m row col)) then false
      else is_compressed_cols m row (S col) k' compressed
  end.

(** The outer loop from [row] on, [k] block rows left. *)
Fixpoint is_compressed_rows (m : t) (row k : nat) (compressed : bool) : bool :=
  match k with
  | 0 => compressed
  | S k' =>
      is_compressed_rows m (S row) k'
        (is_compressed_cols m row 0 (n_block_cols m) compressed)
  end.

Definition is_compressed (m : t) : bool :=
  is_compressed_rows m 0 (n_block_rows m) true.

(** *** Single elements (lines 750-757 and 876-887) *)

(** Modelled from the spec: [BlockMatrixBase::set (i, j, value)] and
    [BlockMatrixBase::add (i, j, value)] are not among the sources.
    Section 4.2: single-element set/add "bypass this machinery and
    resolve/dispatch directly". *)
Definition base_element (o : operation) (m : t) (i j : nat) (value : T)
  : outcome t :=
  row_index ← BlockIndices.global_to_local (row_block_indices m) i;
  col_index ← BlockIndices.global_to_local (column_block_indices m) j;
  Ok (with_blocks m
        (call_block row_index.1 col_index.1
           (element_op o row_index.2 col_index.2 value) (sub_objects m))).

Definition set_element (m : t) (i j : nat) (value : T) : outcome t :=
  base_element SetValues m i j value.

Definition add_element (m : t) (i j : nat) (value : T) : outcome t :=
  base_element AddValues m i j value.

(** *** Bulk [set] and [add] (lines 794-872 and 924-1006)

    The two bodies differ in the member called on the block, [set] or
    [add], and in nothing else; [bulk] is that body. *)

(** [for (i=0; i<n_block_cols(); ++i) local_row_length[i] = 0;] from [i]
    on, [k] iterations left. *)
Fixpoint clear_row_length (lrl : list nat) (i k : nat) : outcome (list nat) :=
  match k with
  | 0 => Ok lrl
  | S k' =>
      lrl' ← store local_row_length_array lrl i 0;
      clear_row_length lrl' (S i) k'
  end.

(** The variables the walk over the column indices updates. *)
Record walk : Type := Walk {
  current_block : nat;
  row_length : nat;
  w_block_col_indices : list nat;
  w_local_row_length : list nat;
  w_local_col_indices : list nat
}.

(** One iteration of the walk, at position [j] with column index [col].
    The [while] loop counts [current_block] up to [col_index.first], which
    is larger when the loop is entered. The increment [++row_length] of
    the loop header is the last step. *)
Definition walk_step (cbi : BlockIndices.t) (j col : nat) (w : walk)
  : outcome walk :=
  col_index ← BlockIndices.global_to_local cbi col;
  lci ← store local_col_indices_array (w_local_col_indices w) j col_index.2;
  w' ← (if bool_decide (current_block w < col_index.1) then
          lrl ← store local_row_length_array (w_local_row_length w)
                  (current_block w) (row_length w);
          bci ← store block_col_indices_array (w_block_col_indices w)
                  col_index.1 j;
          Ok (Walk col_index.1 0 bci lrl lci)
        else
          Ok (Walk (current_block w) (row_length w)
                (w_block_col_indices w) (w_local_row_length w) lci));
  _ ← Assert (bool_decide (col_index.1 = current_block w')) ExcInternalError;
  Ok (Walk (current_block w') (S (row_length w'))
        (w_block_col_indices w') (w_local_row_length w')
        (w_local_col_indices w')).

(** [for (j=0; j<n_cols; ++j, ++row_length)] from [j] on, over the column
    indices left. *)
Fixpoint walk_loop (cbi : BlockIndices.t) (j : nat) (cols : list nat) (w : walk)
  : outcome walk :=
  match cols with
  | [] => Ok w
  | col :: cols' =>
      w' ← walk_step cbi j col w;
      walk_loop cbi (S j) cols' w'
  end.

(** The debug-mode sum [length += local_row_length[i]] from [i] on. *)
Fixpoint sum_row_length (lrl : list nat) (i k length : nat) : outcome nat :=
  match k with
  | 0 => Ok length
  | S k' =>
      x ← load local_row_length_array lrl i;
      sum_row_length lrl (S i) k' (length + x)
  end.

(** The scratch vectors: [block_col_indices], [local_row_length],
    [local_col_indices]. *)
Definition scratch : Type := (list nat * list nat * list nat)%type.

(** Lines 800-849: the scratch vectors are resized and cleared, the walk
    runs, and the run of the last block column is recorded. *)
Definition column_walk (m : t) (col_indices : list nat) : outcome scratch :=
  let n_cols := length col_indices in
  let bci := resize (n_block_cols m) (block_col_indices m) in
  let lrl := resize (n_block_cols m) (local_row_length m) in
  let lci := resize n_cols (local_col_indices m) in
  lrl ← clear_row_length lrl 0 (n_block_cols m);
  bci ← store block_col_indices_array bci 0 0;
  w ← walk_loop (column_block_indices m) 0 col_indices (Walk 0 0 bci lrl lci);
  lrl ← store local_row_length_array (w_local_row_length w)
          (current_block w) (row_length w);
  _ ← Assert (bool_decide (current_block w < n_block_cols m)) ExcInternalError;
  length ← sum_row_length lrl 0 (n_block_cols m) 0;
  _ ← Assert (bool_decide (length = n_cols)) (ExcDimensionMismatch length n_cols);
  Ok (w_block_col_indices w, lrl, w_local_col_indices w).

(** The loop over the block columns for row number [i] of the value
    block, from [block_col] on, [k] block columns left. *)
Fixpoint block_col_loop (o : operation) (sc : scratch) (n_cols i : nat)
    (row_index : nat * nat) (values : list T) (block_col k : nat)
    (grid : nat -> nat -> B) : outcome (nat -> nat -> B) :=
  match k with
  | 0 => Ok grid
  | S k' =>
      len ← load local_row_length_array sc.1.2 block_col;
      if bool_decide (len = 0) then
        block_col_loop o sc n_cols i row_index values (S block_col) k' grid
      else
        off ← load block_col_indices_array sc.1.1 block_col;
        cols ← slice local_col_indices_array sc.2 off len;
        vals ← slice values_array values (n_cols * i + off) len;
        block_col_loop o sc n_cols i row_index values (S block_col) k'
          (call_block row_index.1 block_col (row_op o row_index.2 cols vals) grid)
  end.

(** The loop over the rows from row number [i] on, over the row indices
    left. *)
Fixpoint row_loop (o : operation) (rbi : BlockIndices.t) (n_block_cols : nat)
    (sc : scratch) (n_cols i : nat) (rows : list nat) (values : list T)
    (grid : nat -> nat -> B) : outcome (nat -> nat -> B) :=
  match rows with
  | [] => Ok grid
  | row :: rows' =>
      row_index ← BlockIndices.global_to_local rbi row;
      grid' ← block_col_loop o sc n_cols i row_index values 0 n_block_cols grid;
      row_loop o rbi n_block_cols sc n_cols (S i) rows' values grid'
  end.

Definition bulk (o : operation) (m : t) (row_indices col_indices : list nat)
    (values : list T) : outcome t :=
  sc ← column_walk m col_indices;
  grid ← row_loop o (row_block_indices m) (n_block_cols m) sc
           (length col_indices) 0 row_indices values (sub_objects m);
  Ok (Build (row_block_indices m) (column_block_indices m) grid
        sc.1.1 sc.1.2 sc.2).

(** [set (n_rows, row_indices, n_cols, col_indices, values)]: the two
    index arrays with their lengths, and the value array. *)
Definition set (m : t) (row_indices col_indices : list nat) (values : list T)
  : outcome t :=
  bulk SetValues m row_indices col_indices values.

(** [add (n_rows, row_indices, n_cols, col_indices, values)]. *)
Definition add (m : t) (row_indices col_indices : list nat) (values : list T)
  : outcome t :=
  bulk AddValues m row_indices col_indices values.

(** *** One call per entry

    What the bulk calls are compared with: for each row of the value
    block and each column of it, in row-major order, one single-element
    call with the value [values[n_cols*i + j]]. *)
Fixpoint each_col (o : operation) (n_cols i row j : nat) (cols : list nat)
    (values : list T) (m : t) : outcome t :=
  match cols with
  | [] => Ok m
  | col :: cols' =>
      value ← load values_array values (n_cols * i + j);
      m' ← base_element o m row col value;
      each_col o n_cols i row (S j) cols' values m'
  end.

Fixpoint each_row (o : operation) (i : nat) (rows cols : list nat)
    (values : list T) (m : t) : outcome t :=
  match rows with
  | [] => Ok m
  | row :: rows' =>
      m' ← each_col o (length cols) i row 0 cols values m;
      each_row o (S i) rows' cols values m'
  end.

Definition each_element (o : operation) (m : t) (row_indices col_indices : list nat)
    (values : list T) : outcome t :=
  each_row o 0 row_indices col_indices values m.

(** Two matrices with the same index tables and the same blocks; the
    scratch vectors are temporaries of the bulk calls. *)
Definition same_matrix (m1 m2 : t) : Prop :=
  row_block_indices m1 = row_block_indices m2 /\
  column_block_indices m1 = column_block_indices m2 /\
  forall row col, block m1 row col = block m2 row col.

(** *** The overloads on vectors (lines 761-788 and 891-918)

    [&v[0]] on a vector [v] names its first element, and so does
    [&values(0,0)] on a full matrix; on an empty one it names an element
    past the end. *)

(** [set (row, col_indices, values)] and [add (row, col_indices, values)]
    (lines 778-788 and 908-918). *)
Definition bulk_row (o : operation) (m : t) (row : nat) (col_indices : list nat)
    (values : list T) : outcome t :=
  _ ← Assert (bool_decide (length col_indices = length values))
        (ExcDimensionMismatch (length col_indices) (length values));
  if bool_decide (col_indices = []) then Undefined values_array
  else bulk o m [row] col_indices values.

Definition set_row (m : t) (row : nat) (col_indices : list nat) (values : list T)
  : outcome t :=
  bulk_row SetValues m row col_indices values.

Definition add_row (m : t) (row : nat) (col_indices : list nat) (values : list T)
  : outcome t :=
  bulk_row AddValues m row col_indices values.

(** [set (row_indices, col_indices, full_matrix)] and
    [add (row_indices, col_indices, full_matrix)] (lines 761-774 and
    891-904). *)
Definition bulk_matrix (o : operation) (m : t) (row_indices col_indices : list nat)
    (values : FullMatrix T) : outcome t :=
  _ ← Assert (bool_decide (length row_indices = fm_m values))
        (ExcDimensionMismatch (length row_indices) (fm_m values));
  _ ← Assert (bool_decide (length col_indices = fm_n values))
        (ExcDimensionMismatch (length col_indices) (fm_n values));
  if bool_decide (row_indices = [] \/ col_indices = []) then Undefined values_array
  else bulk o m row_indices col_indices (fm_entries values).

Definition set_matrix (m : t) (row_indices col_indices : list nat)
    (values : FullMatrix T) : outcome t :=
  bulk_matrix SetValues m row_indices col_indices values.

Definition add_matrix (m : t) (row_indices col_indices : list nat)
    (values : FullMatrix T) : outcome t :=
  bulk_matrix AddValues m row_indices col_indices values.

End Members.

Arguments t : clear implicits.

End BlockSparseMatrix.

(** ** The numeric vector *)

(** The template parameter [Number] of [Vector]: the arithmetic the member
    functions use, and the conversion of a size to a number. *)
Class Number (N : Type) : Type := {
  num_zero : N;
  num_plus : N -> N -> N;
  num_times : N -> N -> N;
  num_negate : N -> N;
  num_divide : N -> N -> N;
  num_of_size : nat -> N
}.


Module Vector.

Section Members.

Context {N : Type} `{Number N}.

(** The data members (lines 443-466): [val] points to [maxdim] numbers,
    of which the first [dim] are the components. *)
Record t : Type := Build {
  dim : nat;
  maxdim : nat;
  val : list N
}.

(** The invariant of the data members: "[maxdim] may be greater than
    [dim]", and [val] holds [maxdim] numbers. *)
Definition wf (v : t) : Prop := dim v <= maxdim v /\ length (val v) = maxdim v.

(** The components, as the iterators [begin ()] to [end ()] run over
    them. *)
Definition elements (v : t) : list N := take (dim v) (val v).

(** [size ()] (lines 473-478). *)
Definition size (v : t) : nat := dim v.

(** [operator() (i)] (lines 509-524). *)
Definition operator_call (v : t) (i : nat) : outcome N :=
  _ ← Assert (bool_decide (i < dim v)) (ExcIndexRange i 0 (dim v));
  load val_array (val v) i.

(** [new Number[n]]: [n] numbers of whatever the memory held. *)
Definition new_array (memory : list N) (n : nat) : list N :=
  take n (memory ++ replicate n num_zero).

(** Modelled from the spec: [clear] is declared (lines 100-107) and
    defined outside the sources: "Set all entries to zero ... does not
    change the size of the vector". *)
Definition clear (v : t) : t :=
  Build (dim v) (maxdim v) (replicate (dim v) num_zero ++ drop (dim v) (val v)).

(** Modelled from the spec: [reinit] is declared (lines 162-181) and
    defined outside the sources. Its comment: "The reserved memory for
    this vector remains unchanged if possible ... However, if N==0 all
    memory is freed ... On fast==false, the vector is filled by zeros";
    Section 4.1: "grows/shrinks to n elements; when preserveFlag is false,
    all elements are zeroed; shrinking to 0 releases storage". [memory] is
    what a new allocation holds before it is written. *)
Definition reinit (memory : list N) (v : t) (n : nat) (fast : bool) : t :=
  if bool_decide (n = 0) then Build 0 0 []
  else
    let v' :=
      if bool_decide (maxdim v < n) then Build n n (new_array memory n)
      else Build n (maxdim v) (val v) in
    if fast then v' else clear v'.

(** The loop [sum += val[i]] from [i] on, [k] components left. *)
Fixpoint sum_loop (a : list N) (i k : nat) (sum : N) : outcome N :=
  match k with
  | 0 => Ok sum
  | S k' =>
      x ← load val_array a i;
      sum_loop a (S i) k' (num_plus sum x)
  end.

(** Modelled from the spec: [mean_value] is declared (lines 135-139) and
    defined outside the sources. Section 4.1: "arithmetic mean of
    elements; fails with EmptyVector on zero-length input"; the class
    declares [ExcEmptyVector] (lines 434-437). *)
Definition mean_value (v : t) : outcome N :=
  _ ← Assert (negb (bool_decide (dim v = 0))) ExcEmptyVector;
  sum ← sum_loop (val v) 0 (dim v) num_zero;
  Ok (num_divide sum (num_of_size (size v))).

(** The loop [val[i] += a * V.val[i]] from [i] on, [k] components left. *)
Fixpoint add_loop (a : N) (w : list N) (u : list N) (i k : nat)
  : outcome (list N) :=
  match k with
  | 0 => Ok u
  | S k' =>
      x ← load val_array u i;
      y ← load val_array w i;
      u' ← store val_array u i (num_plus x (num_times a y));
      add_loop a w u' (S i) k'
  end.

(** Modelled from the spec: [add (a, V)] is declared (lines 289-293,
    "U+=a*V. Simple addition of a scaled vector") and defined outside the
    sources. Section 4.1: "element-wise scalar/vector accumulation; all
    require matching sizes, else DimensionMismatch"; the class declares
    [ExcDimensionsDontMatch] (lines 420-423). *)
Definition add (a : N) (w : t) (u : t) : outcome t :=
  _ ← Assert (bool_decide (dim u = dim w)) (ExcDimensionsDontMatch (dim u) (dim w));
  val' ← add_loop a (val w) (val u) 0 (dim u);
  Ok (Build (dim u) (maxdim u) val').

(** The assignment [V(i) = x] through the reference the non-constant
    [operator() (i)] returns (lines 518-524). *)
Definition assign (v : t) (i : nat) (x : N) : outcome t :=
  _ ← Assert (bool_decide (i < dim v)) (ExcIndexRange i 0 (dim v));
  val' ← store val_array (val v) i x;
  Ok (Build (dim v) (maxdim v) val').

End Members.

Arguments t : clear implicits.

End Vector.

(** ** Instances of the template parameters *)

(** [#define TrilinosScalar double] (line 31). *)
Definition TrilinosScalar : Type := float.

(** [Vector<double>]: IEEE 754 binary64 arithmetic. *)
#[global] Instance double_number : Number float := {
  num_zero := 0%float;
  num_plus := PrimFloat.add;
  num_times := PrimFloat.mul;
  num_negate := PrimFloat.opp;
  num_divide := PrimFloat.div;
  num_of_size n := PrimFloat.of_uint63 (Uint63.of_Z (Z.of_nat n))
}.

(** Integers, a number type without rounding. *)
#[global] Instance integer_number : Number Z := {
  num_zero := 0%Z;
  num_plus := Z.add;
  num_times := Z.mul;
  num_negate := Z.opp;
  num_divide := Z.div;
  num_of_size := Z.of_nat
}.

(** A block that keeps the calls it received, each as it was made. *)
Inductive received (T : Type) : Type :=
  | Element (o : operation) (row col : nat) (value : T)
  | Row (o : operation) (row : nat) (cols : list nat) (values : list T).
Arguments Element {T} o row col value.
Arguments Row {T} o row cols values.

Definition call_log (T : Type) : Type := list (received T).

#[global] Instance call_log_matrix (T : Type) : SparseMatrix T (call_log T) := {
  sm_set row col value b := b ++ [Element SetValues row col value];
  sm_add row col value b := b ++ [Element AddValues row col value];
  sm_set_row row cols values b := b ++ [Row SetValues row cols values];
  sm_add_row row cols values b := b ++ [Row AddValues row cols values];
  sm_is_compressed b := match b with [] => true | _ => false end
}.

(** A block that keeps the entries written to it, one by one. *)
Definition entry_log (T : Type) : Type := list (operation * nat * nat * T).

#[global] Instance entry_log_matrix (T : Type) : SparseMatrix T (entry_log T) := {
  sm_set row col value b := b ++ [(SetValues, row, col, value)];
  sm_add row col value b := b ++ [(AddValues, row, col, value)];
  sm_set_row row cols values b :=
    b ++ ((fun cv => (SetValues, row, cv.1, cv.2)) <$> zip cols values);
  sm_add_row row cols values b :=
    b ++ ((fun cv => (AddValues, row, cv.1, cv.2)) <$> zip cols values);
  sm_is_compressed b := match b with [] => true | _ => false end
}.

(** ** What the claims speak of *)

(** The index pairs [global_to_local] returns for a list of global
    indices: the owning block and the local index of each. *)
Definition resolved (bi : BlockIndices.t) (indices : list nat)
    (pairs : list (nat * nat)) : Prop :=
  Forall2 (fun i p => BlockIndices.global_to_local bi i = Ok p) indices pairs.

(** Sorted by increasing owning block: no index is owned by a smaller
    block than an earlier one. *)
Definition sorted_by_block (pairs : list (nat * nat)) : Prop :=
  forall k j p q, k < j -> pairs !! k = Some p -> pairs !! j = Some q ->
    p.1 <= q.1.

(** Some index is owned by a smaller block than an earlier one. *)
Definition unsorted_by_block (pairs : list (nat * nat)) : Prop :=
  exists k j p q, k < j /\ pairs !! k = Some p /\ pairs !! j = Some q /\
    q.1 < p.1.

(** The check of [sorted_by_block] from left to right, [bound] being the
    block of the index before. *)
Fixpoint nondecreasing (bound : nat) (pairs : list (nat * nat)) : bool :=
  match pairs with
  | [] => true
  | p :: pairs' => bool_decide (bound <= p.1) && nondecreasing p.1 pairs'
  end.

(** The number of indices block [b] owns. *)
Definition owned (b : nat) (pairs : list (nat * nat)) : nat :=
  length (filter (fun p => p.1 = b) pairs).

(** The scratch vectors describe one contiguous run per block column. *)
Record partitioned (n_block_cols : nat) (pairs : list (nat * nat))
    (sc : BlockSparseMatrix.scratch) : Prop := Partitioned {
  part_block_col_indices : length sc.1.1 = n_block_cols;
  part_local_row_length : length sc.1.2 = n_block_cols;
  part_local_col_indices : sc.2 = pairs.*2;
  part_owned : forall b, b < n_block_cols -> get sc.1.2 b = owned b pairs;
  part_run : forall b k,
    (exists l, pairs !! k = Some (b, l)) <->
    get sc.1.1 b <= k < get sc.1.1 b + get sc.1.2 b;
  part_sum : sum_list sc.1.2 = length pairs
}.

(** The invariant of the walk after the column indices with the index
    pairs [done]. *)
Record walk_inv (n_block_cols n_cols : nat) (done : list (nat * nat))
    (w : BlockSparseMatrix.walk) : Prop := WalkInv {
  inv_bci : length (BlockSparseMatrix.w_block_col_indices w) = n_block_cols;
  inv_lrl : length (BlockSparseMatrix.w_local_row_length w) = n_block_cols;
  inv_lci : length (BlockSparseMatrix.w_local_col_indices w) = n_cols;
  inv_current : BlockSparseMatrix.current_block w < n_block_cols;
  inv_le : forall k p, done !! k = Some p ->
    p.1 <= BlockSparseMatrix.current_block w;
  inv_sorted : sorted_by_block done;
  inv_zero : forall b, BlockSparseMatrix.current_block w <= b ->
    get (BlockSparseMatrix.w_local_row_length w) b = 0;
  inv_owned : forall b, b < BlockSparseMatrix.current_block w ->
    get (BlockSparseMatrix.w_local_row_length w) b = owned b done;
  inv_owned_current :
    BlockSparseMatrix.row_length w =
    owned (BlockSparseMatrix.current_block w) done;
  inv_run : forall b k, b < BlockSparseMatrix.current_block w ->
    (exists l, done !! k = Some (b, l)) <->
    get (BlockSparseMatrix.w_block_col_indices w) b <= k <
    get (BlockSparseMatrix.w_block_col_indices w) b +
    get (BlockSparseMatrix.w_local_row_length w) b;
  inv_run_current : forall k,
    (exists l, done !! k = Some (BlockSparseMatrix.current_block w, l)) <->
    get (BlockSparseMatrix.w_block_col_indices w)
        (BlockSparseMatrix.current_block w) <= k <
    get (BlockSparseMatrix.w_block_col_indices w)
        (BlockSparseMatrix.current_block w) + BlockSparseMatrix.row_length w;
  inv_end :
    get (BlockSparseMatrix.w_block_col_indices w)
        (BlockSparseMatrix.current_block w) + BlockSparseMatrix.row_length w =
    length done;
  inv_start : BlockSparseMatrix.row_length w = 0 ->
    BlockSparseMatrix.current_block w = 0;
  inv_sum :
    sum_list (BlockSparseMatrix.w_local_row_length w) +
    BlockSparseMatrix.row_length w = length done;
  inv_local : forall k p, done !! k = Some p ->
    BlockSparseMatrix.w_local_col_indices w !! k = Some p.2
}.

(** A single-row, multi-column call forwarded to a block. *)
Record forwarded (T : Type) : Type := Forwarded {
  to_block_row : nat;
  to_block_col : nat;
  local_row : nat;
  local_cols : list nat;
  row_values : list T
}.
Arguments Forwarded {T} _ _ _ _ _.
Arguments to_block_row {T} _.
Arguments to_block_col {T} _.
Arguments local_row {T} _.
Arguments local_cols {T} _.
Arguments row_values {T} _.

Section Forwarding.

Context {T B : Type} `{SparseMatrix T B}.

(** The table of blocks after the call [c] was made. *)
Definition forward (o : operation) (grid : nat -> nat -> B) (c : forwarded T)
  : nat -> nat -> B :=
  BlockSparseMatrix.call_block (to_block_row c) (to_block_col c)
    (row_op o (local_row c) (local_cols c) (row_values c)) grid.

(** The call for row number [i] of the value block, resolved to
    [row_index], and block column [block_col]. *)
Definition forwarded_to (sc : BlockSparseMatrix.scratch) (n_cols i : nat)
    (row_index : nat * nat) (values : list T) (block_col : nat) : forwarded T :=
  Forwarded row_index.1 block_col row_index.2
    (take (get sc.1.2 block_col) (drop (get sc.1.1 block_col) sc.2))
    (take (get sc.1.2 block_col)
       (drop (n_cols * i + get sc.1.1 block_col) values)).

(** The calls for row number [i]: one for each block column with a run
    of non-zero length, by increasing block column. *)
Definition forwarded_for_row (sc : BlockSparseMatrix.scratch)
    (n_block_cols n_cols i : nat) (row_index : nat * nat) (values : list T)
  : list (forwarded T) :=
  forwarded_to sc n_cols i row_index values <$>
    filter (fun block_col => get sc.1.2 block_col <> 0) (seq 0 n_block_cols).

(** The calls for the rows from row number [i] on, row by row. *)
Fixpoint forwarded_calls (sc : BlockSparseMatrix.scratch)
    (n_block_cols n_cols i : nat) (row_pairs : list (nat * nat))
    (values : list T) : list (forwarded T) :=
  match row_pairs with
  | [] => []
  | row_index :: row_pairs' =>
      forwarded_for_row sc n_block_cols n_cols i row_index values ++
      forwarded_calls sc n_block_cols n_cols (S i) row_pairs' values
  end.

(** The table of blocks after the single-element calls for one row of
    the value block, given the index pairs of the row and of the columns
    and the values of the row. *)
Definition entry_call (o : operation) (row_index : nat * nat)
    (grid : nat -> nat -> B) (x : nat * nat * T) : nat -> nat -> B :=
  BlockSparseMatrix.call_block row_index.1 x.1.1
    (element_op o row_index.2 x.1.2 x.2) grid.

(** The table of blocks after the single-element calls for the rows from
    row number [i] on. *)
Fixpoint entry_calls (o : operation) (n_cols i : nat)
    (row_pairs col_pairs : list (nat * nat)) (values : list T)
    (grid : nat -> nat -> B) : nat -> nat -> B :=
  match row_pairs with
  | [] => grid
  | row_index :: row_pairs' =>
      entry_calls o n_cols (S i) row_pairs' col_pairs values
        (foldl (entry_call o row_index) grid
           (zip col_pairs (drop (n_cols * i) values)))
  end.

End Forwarding.

(** No access to a scratch vector was out of bounds. *)
Definition scratch_in_bounds {A} (c : outcome A) : bool :=
  match c with
  | Undefined block_col_indices_array => false
  | Undefined local_row_length_array => false
  | Undefined local_col_indices_array => false
  | _ => true
  end.

(** ** The vector after [add (a, W)] and [add (-a, W)] *)


(** ** Results compared *)

(** Every access to an array was in bounds. *)
Definition in_bounds {A} (c : outcome A) : bool :=
  match c with
  | Undefined _ => false
  | _ => true
  end.

(** Two bulk calls with the same result: the same exception, the same
    array left, or matrices with the same index tables and blocks and the
    same [local_row_length] and [local_col_indices]. *)
Definition same_result {B} (c1 c2 : outcome (BlockSparseMatrix.t B)) : Prop :=
  match c1, c2 with
  | Ok m1, Ok m2 =>
      BlockSparseMatrix.same_matrix m1 m2 /\
      BlockSparseMatrix.local_row_length m1 = BlockSparseMatrix.local_row_length m2 /\
      BlockSparseMatrix.local_col_indices m1 = BlockSparseMatrix.local_col_indices m2
  | Raise e1, Raise e2 => e1 = e2
  | Undefined a1, Undefined a2 => a1 = a2
  | _, _ => False
  end.

(** The matrix [m] with other contents of the scratch vectors. *)
Definition with_scratch {B} (m : BlockSparseMatrix.t B) (bci lrl lci : list nat)
  : BlockSparseMatrix.t B :=
  BlockSparseMatrix.Build (BlockSparseMatrix.row_block_indices m)
    (BlockSparseMatrix.column_block_indices m) (BlockSparseMatrix.sub_objects m)
    bci lrl lci.

Section WholeRows.

Context {T B : Type} `{SparseMatrix T B}.

(** The table of blocks after block [(0, 0)] received, for each row index
    from row number [i] on, one single-row call with all the column
    indices and the values of the row. *)
Fixpoint whole_rows (o : operation) (n_cols i : nat) (row_indices col_indices : list nat)
    (values : list T) (grid : nat -> nat -> B) : nat -> nat -> B :=
  match row_indices with
  | [] => grid
  | row :: row_indices' =>
      whole_rows o n_cols (S i) row_indices' col_indices values
        (BlockSparseMatrix.call_block 0 0
           (row_op o row col_indices (take n_cols (drop (n_cols * i) values)))
           grid)
  end.

End WholeRows.

(** A matrix of one block with [n_rows] rows and [n_cols] columns. *)
Definition one_block {B : Type} (n_rows n_cols : nat) (b : B)
  : BlockSparseMatrix.t B :=
  BlockSparseMatrix.Build (BlockIndices.Build [n_rows]) (BlockIndices.Build [n_cols])
    (fun _ _ => b) [] [] [].

(** ** A matrix of 2 x 3 blocks

    Block rows of 2 and 3 rows, block columns of 2, 0 and 3 columns, and
    scratch vectors left over from an earlier call. *)

Definition example_rows : BlockIndices.t := BlockIndices.Build [2; 3].

Definition example_columns : BlockIndices.t := BlockIndices.Build [2; 0; 3].

Definition example_matrix {B : Type} (empty : B) : BlockSparseMatrix.t B :=
  BlockSparseMatrix.Build example_rows example_columns (fun _ _ => empty)
    [7; 7; 7; 7] [9] [5].

(** A matrix as the default constructor leaves it: no blocks. *)
Definition empty_matrix {B : Type} (empty : B) : BlockSparseMatrix.t B :=
  BlockSparseMatrix.Build (BlockIndices.Build []) (BlockIndices.Build [])
    (fun _ _ => empty) [] [] [].

Definition example_row_indices : list nat := [4; 0].

(** Sorted by block column, not by column index. *)
Definition example_col_indices : list nat := [1; 0; 4; 2].

Definition example_values : list TrilinosScalar :=
  [1%float; 2%float; 3%float; 4%float; 5%float; 6%float; 7%float; 8%float].

Definition example_row_pairs : list (nat * nat) := [(1, 2); (0, 0)].

Definition example_col_pairs : list (nat * nat) :=
  [(0, 1); (0, 0); (2, 2); (2, 0)].

(** Column indices of block columns 2 and 0, in this order. *)
Definition unsorted_col_indices : list nat := [4; 1].

Definition unsorted_col_pairs : list (nat * nat) := [(2, 2); (0, 1)].

(** The values as a full matrix of 2 x 4. *)
Definition example_full_matrix : FullMatrix TrilinosScalar :=
  Build_FullMatrix 2 4 example_values.

(** The values of one row. *)
Definition example_row_values : list TrilinosScalar :=
  [1%float; 2%float; 3%float; 4%float].

(** ** Vectors

    A vector of integers with three components in a buffer of four, and
    a second one to add to it. *)

Definition example_vector : Vector.t Z := Vector.Build 3 4 [2%Z; 2%Z; 2%Z; 9%Z].




(** * Properties *)

(** ** Results and arrays *)

Lemma bind_Ok {A C} (c : outcome A) (k : A -> outcome C) (r : C) :
  c ≫= k = Ok r <-> exists a, c = Ok a /\ k a = Ok r.
Proof.
  destruct c as [a|e|n]; simpl; split.
  - eauto.
  - intros (a' & [= <-] & Hk). exact Hk.
  - discriminate.
  - intros (a' & [=] & _).
  - discriminate.
  - intros (a' & [=] & _).
Qed.

Lemma Assert_Ok (cond : bool) (exc : exception) (u : unit) :
  Assert cond exc = Ok u <-> cond = true.
Proof. destruct cond, u; simpl; split; congruence. Qed.

Lemma load_Ok {A} name (a : list A) i x :
  load name a i = Ok x <-> a !! i = Some x.
Proof. unfold load. destruct (a !! i); split; congruence. Qed.

Lemma store_Ok {A} name (a : list A) i x a' :
  store name a i x = Ok a' <-> i < length a /\ a' = <[i := x]> a.
Proof.
  unfold store. case_bool_decide; split.
  - intros [= <-]. auto.
  - intros [_ ->]. reflexivity.
  - discriminate.
  - intros [? _]. contradiction.
Qed.

Lemma store_lt {A} name (a : list A) i x :
  i < length a -> store name a i x = Ok (<[i := x]> a).
Proof. intros Hi. unfold store. rewrite bool_decide_eq_true_2; auto. Qed.

Lemma slice_Ok {A} name (a : list A) off len s :
  slice name a off len = Ok s <->
  off + len <= length a /\ s = take len (drop off a).
Proof.
  unfold slice. case_bool_decide; split.
  - intros [= <-]. auto.
  - intros [_ ->]. reflexivity.
  - discriminate.
  - intros [? _]. contradiction.
Qed.

Lemma get_lookup (a : list nat) i x : a !! i = Some x -> get a i = x.
Proof. unfold get. intros ->. reflexivity. Qed.

Lemma lookup_get (a : list nat) i : i < length a -> a !! i = Some (get a i).
Proof.
  intros Hi. unfold get.
  destruct (lookup_lt_is_Some_2 a i Hi) as [x ->]. reflexivity.
Qed.

Lemma get_ge (a : list nat) i : length a <= i -> get a i = 0.
Proof. intros Hi. unfold get. rewrite lookup_ge_None_2; auto. Qed.

Lemma get_insert_eq (a : list nat) i x :
  i < length a -> get (<[i := x]> a) i = x.
Proof. intros Hi. unfold get. rewrite list_lookup_insert_eq; auto. Qed.

Lemma get_insert_ne (a : list nat) i j x :
  i <> j -> get (<[i := x]> a) j = get a j.
Proof. intros Hij. unfold get. rewrite list_lookup_insert_ne; auto. Qed.

Lemma length_resize n a : length (resize n a) = n.
Proof.
  unfold resize. rewrite length_app, length_take, length_replicate. lia.
Qed.

(** ** [is_compressed] *)

Section IsCompressed.

Context {T B : Type} `{SparseMatrix T B}.

Implicit Types m : BlockSparseMatrix.t B.

Lemma is_compressed_cols_true m row col k compressed :
  BlockSparseMatrix.is_compressed_cols m row col k compressed = true <->
  compressed = true /\
  forall c, col <= c < col + k ->
    sm_is_compressed (BlockSparseMatrix.block m row c) = true.
Proof.
  revert col. induction k as [|k IH]; intros col; simpl.
  - split; [intros ->; split; [reflexivity | intros; lia] | tauto].
  - destruct (sm_is_compressed (BlockSparseMatrix.block m row col)) eqn:E; simpl.
    + rewrite IH. split; intros [Hc Hall]; split; auto; intros c Hr.
      * destruct (decide (c = col)) as [-> | Hne]; [exact E | apply Hall; lia].
      * apply Hall. lia.
    + split; [discriminate |]. intros [_ Hall].
      rewrite Hall in E by lia. discriminate.
Qed.

Lemma is_compressed_rows_true m row k compressed :
  BlockSparseMatrix.is_compressed_rows m row k compressed = true <->
  compressed = true /\
  forall r c, row <= r < row + k -> c < BlockSparseMatrix.n_block_cols m ->
    sm_is_compressed (BlockSparseMatrix.block m r c) = true.
Proof.
  revert row compressed. induction k as [|k IH]; intros row compressed; simpl.
  - split; [intros ->; split; [reflexivity | intros; lia] | tauto].
  - rewrite IH, is_compressed_cols_true.
    split.
    + intros [[Hc Hrow] Hrest]. split; [exact Hc |]. intros r c Hr Hcol.
      destruct (decide (r = row)) as [-> | Hne].
      * apply Hrow. lia.
      * apply Hrest; lia.
    + intros [Hc Hall]. repeat split; auto.
      * intros c Hcol. apply Hall; lia.
      * intros r c Hr Hcol. apply Hall; lia.
Qed.

(** A block that is not compressed, among the blocks of rows [row] to
    [row + k - 1], if there is one. *)
Lemma uncompressed_block_dec m row k :
  (forall r c, row <= r < row + k -> c < BlockSparseMatrix.n_block_cols m ->
     sm_is_compressed (BlockSparseMatrix.block m r c) = true) \/
  (exists r c, row <= r < row + k /\ c < BlockSparseMatrix.n_block_cols m /\
     sm_is_compressed (BlockSparseMatrix.block m r c) = false).
Proof.
  destruct (BlockSparseMatrix.is_compressed_rows m row k true) eqn:E.
  - left. apply is_compressed_rows_true in E. tauto.
  - right. revert row E. induction k as [|k IH]; intros row E; simpl in E.
    + discriminate.
    + destruct (BlockSparseMatrix.is_compressed_cols m row 0
                  (BlockSparseMatrix.n_block_cols m) true) eqn:Ecols.
      * destruct (IH (S row) E) as (r & c & Hr & Hc & Hrc).
        exists r, c. repeat split; auto; lia.
      * clear E IH.
        assert (Hcols : forall col n,
          BlockSparseMatrix.is_compressed_cols m row col n true = false ->
          exists c, col <= c < col + n /\
            sm_is_compressed (BlockSparseMatrix.block m row c) = false).
        { intros col n. revert col. induction n as [|n IHn]; intros col E; simpl in E.
          - discriminate.
          - destruct (sm_is_compressed (BlockSparseMatrix.block m row col)) eqn:Eb;
              simpl in E.
            + destruct (IHn (S col) E) as (c & Hc & Hrc). exists c. split; [lia | auto].
            + exists col. split; [lia | auto]. }
        destruct (Hcols 0 _ Ecols) as (c & Hc & Hrc).
        exists row, c. repeat split; auto; lia.
Qed.

(** C6. [is_compressed ()] returns true if and only if every one of the
    [n_block_rows () * n_block_cols ()] blocks reports [is_compressed ()]
    true, and false if and only if some block reports false. *)
Theorem is_compressed_iff_all_blocks m :
  (BlockSparseMatrix.is_compressed m = true <->
   forall row col,
     row < BlockSparseMatrix.n_block_rows m ->
     col < BlockSparseMatrix.n_block_cols m ->
     sm_is_compressed (BlockSparseMatrix.block m row col) = true) /\
  (BlockSparseMatrix.is_compressed m = false <->
   exists row col,
     row < BlockSparseMatrix.n_block_rows m /\
     col < BlockSparseMatrix.n_block_cols m /\
     sm_is_compressed (BlockSparseMatrix.block m row col) = false).
Proof.
  assert (Htrue : BlockSparseMatrix.is_compressed m = true <->
    forall row col,
      row < BlockSparseMatrix.n_block_rows m ->
      col < BlockSparseMatrix.n_block_cols m ->
      sm_is_compressed (BlockSparseMatrix.block m row col) = true).
  { unfold BlockSparseMatrix.is_compressed. rewrite is_compressed_rows_true.
    split.
    - intros [_ Hall] row col Hr Hc. apply Hall; lia.
    - intros Hall. split; [reflexivity |]. intros r c Hr Hc. apply Hall; lia. }
  split; [exact Htrue |].
  split.
  - intros E.
    destruct (uncompressed_block_dec m 0 (BlockSparseMatrix.n_block_rows m))
      as [Hall | (r & c & Hr & Hc & Hrc)].
    + assert (BlockSparseMatrix.is_compressed m = true) as E'.
      { apply Htrue. intros row col Hr Hc. apply Hall; lia. }
      congruence.
    + exists r, c. repeat split; auto; lia.
  - intros (r & c & Hr & Hc & Hrc).
    destruct (BlockSparseMatrix.is_compressed m) eqn:E; [| reflexivity].
    rewrite (proj1 Htrue eq_refl r c Hr Hc) in Hrc. discriminate.
Qed.

End IsCompressed.

(** ** Block indices *)

Lemma locate_bounds sizes b i p :
  BlockIndices.locate sizes b i = Some p -> b <= p.1 < b + length sizes.
Proof.
  revert b i. induction sizes as [|s sizes IH]; intros b i; simpl.
  - discriminate.
  - case_bool_decide.
    + intros [= <-]. simpl. lia.
    + intros E. apply IH in E. lia.
Qed.

Lemma locate_in_range sizes b i :
  i < sum_list sizes -> exists p, BlockIndices.locate sizes b i = Some p.
Proof.
  revert b i. induction sizes as [|s sizes IH]; intros b i; simpl.
  - lia.
  - intros Hi. case_bool_decide; [eauto |]. apply IH. lia.
Qed.

Lemma global_to_local_block bi i p :
  BlockIndices.global_to_local bi i = Ok p -> p.1 < BlockIndices.size bi.
Proof.
  unfold BlockIndices.global_to_local, BlockIndices.size.
  destruct (BlockIndices.locate _ 0 i) as [q|] eqn:E; [| discriminate].
  intros [= <-]. apply locate_bounds in E. lia.
Qed.

Lemma global_to_local_in_range bi i :
  i < BlockIndices.total_size bi ->
  exists p, BlockIndices.global_to_local bi i = Ok p.
Proof.
  intros Hi. unfold BlockIndices.global_to_local.
  destruct (locate_in_range (BlockIndices.block_sizes bi) 0 i Hi) as [p ->].
  eauto.
Qed.

Lemma global_to_local_cases bi i :
  (exists p, BlockIndices.global_to_local bi i = Ok p) \/
  (exists e, BlockIndices.global_to_local bi i = Raise e).
Proof.
  unfold BlockIndices.global_to_local.
  destruct (BlockIndices.locate _ 0 i); eauto.
Qed.

Lemma resolved_length bi indices pairs :
  resolved bi indices pairs -> length indices = length pairs.
Proof. apply Forall2_length. Qed.

Lemma resolved_unique bi indices pairs1 pairs2 :
  resolved bi indices pairs1 -> resolved bi indices pairs2 -> pairs1 = pairs2.
Proof.
  intros H1; revert pairs2. induction H1 as [|i p indices pairs1 Hp _ IH];
    intros pairs2 H2; inversion H2 as [|? q ? pairs2' Hq H2']; subst.
  - reflexivity.
  - f_equal; [congruence | auto].
Qed.

(** ** Counting and sums *)

Lemma owned_snoc b pairs p :
  owned b (pairs ++ [p]) =
  owned b pairs + (if decide (p.1 = b) then 1 else 0).
Proof.
  unfold owned. rewrite filter_app, length_app. f_equal.
  rewrite filter_cons, filter_nil. destruct (decide (p.1 = b)); reflexivity.
Qed.

Lemma sum_list_insert_zero (a : list nat) i x :
  a !! i = Some 0 -> sum_list (<[i := x]> a) = sum_list a + x.
Proof.
  revert i. induction a as [|y a IH]; intros [|i]; simpl; try discriminate.
  - intros [= ->]. lia.
  - intros E. rewrite (IH i E). lia.
Qed.

Lemma snoc_owner (done : list (nat * nat)) o l b k :
  (exists l', (done ++ [(o, l)]) !! k = Some (b, l')) <->
  (exists l', done !! k = Some (b, l')) \/ (k = length done /\ b = o).
Proof.
  split.
  - intros [l' E]. apply lookup_snoc_Some in E as [[_ E] | [-> [= <- <-]]]; eauto.
  - intros [[l' E] | [-> ->]].
    + exists l'. apply lookup_snoc_Some. left. split; [| exact E].
      eapply lookup_lt_Some, E.
    + exists l. apply lookup_snoc_Some. right. auto.
Qed.

Lemma sorted_by_block_snoc done p bound :
  sorted_by_block done ->
  (forall k q, done !! k = Some q -> q.1 <= bound) ->
  bound <= p.1 ->
  sorted_by_block (done ++ [p]).
Proof.
  intros Hs Hle Hp k j q1 q2 Hkj E1 E2.
  apply lookup_snoc_Some in E1 as [[Hk E1] | [-> <-]];
    apply lookup_snoc_Some in E2 as [[Hj E2] | [-> <-]].
  - exact (Hs k j q1 q2 Hkj E1 E2).
  - specialize (Hle _ _ E1). lia.
  - lia.
  - lia.
Qed.

(** ** The loops over the scratch vectors *)

Lemma clear_row_length_spec lrl i k :
  i + k = length lrl ->
  BlockSparseMatrix.clear_row_length lrl i k = Ok (take i lrl ++ replicate k 0).
Proof.
  revert lrl i. induction k as [|k IH]; intros lrl i Hlen; simpl.
  - rewrite app_nil_r, take_ge by lia. reflexivity.
  - rewrite store_lt by lia. simpl.
    rewrite IH by (rewrite length_insert; lia). f_equal.
    rewrite (take_S_r _ i 0) by (apply list_lookup_insert_eq; lia).
    rewrite take_insert_ge, <- app_assoc by lia. reflexivity.
Qed.

Lemma sum_row_length_spec lrl i k acc :
  i + k = length lrl ->
  BlockSparseMatrix.sum_row_length lrl i k acc = Ok (acc + sum_list (drop i lrl)).
Proof.
  revert i acc. induction k as [|k IH]; intros i acc Hlen; simpl.
  - rewrite drop_ge by lia. simpl. f_equal. lia.
  - destruct (lookup_lt_is_Some_2 lrl i) as [x Hx]; [lia |].
    unfold load. rewrite Hx. simpl. rewrite IH by lia. f_equal.
    rewrite (drop_S _ _ _ Hx). simpl. lia.
Qed.

Lemma owned_none b (pairs : list (nat * nat)) :
  (forall k q, pairs !! k = Some q -> q.1 <> b) -> owned b pairs = 0.
Proof.
  unfold owned. induction pairs as [|p pairs IH]; intros Hall; [reflexivity |].
  rewrite filter_cons_False by (apply (Hall 0); reflexivity).
  apply IH. intros k q Eq. apply (Hall (S k)). exact Eq.
Qed.

(** ** The walk over the column indices *)

Section ColumnWalk.

Variables (cbi : BlockIndices.t) (n_cols : nat).

Local Abbreviation n_block_cols := (BlockIndices.size cbi).

Lemma walk_step_unresolved j col w e :
  BlockIndices.global_to_local cbi col = Raise e ->
  BlockSparseMatrix.walk_step cbi j col w = Raise e.
Proof. intros E. unfold BlockSparseMatrix.walk_step. rewrite E. reflexivity. Qed.

Lemma walk_step_unsorted done w col p :
  walk_inv n_block_cols n_cols done w -> length done < n_cols ->
  BlockIndices.global_to_local cbi col = Ok p ->
  p.1 < BlockSparseMatrix.current_block w ->
  BlockSparseMatrix.walk_step cbi (length done) col w = Raise ExcInternalError.
Proof.
  intros Hinv Hj E Hlt. pose proof (inv_lci _ _ _ _ Hinv) as Hlci.
  destruct w as [cur rl bci lrl lci]. simpl in *.
  unfold BlockSparseMatrix.walk_step. rewrite E. simpl.
  rewrite (store_lt local_col_indices_array) by lia. simpl.
  rewrite bool_decide_eq_false_2 by lia. simpl.
  rewrite bool_decide_eq_false_2 by lia. reflexivity.
Qed.

Lemma walk_step_sorted done w col p :
  walk_inv n_block_cols n_cols done w -> length done < n_cols ->
  BlockIndices.global_to_local cbi col = Ok p ->
  BlockSparseMatrix.current_block w <= p.1 ->
  exists w', BlockSparseMatrix.walk_step cbi (length done) col w = Ok w' /\
    walk_inv n_block_cols n_cols (done ++ [p]) w'.
Proof.
  intros Hinv Hj E Hle.
  pose proof (global_to_local_block _ _ _ E) as Hblock.
  destruct p as [o l]. destruct w as [cur rl bci lrl lci].
  destruct Hinv as [Hbci Hlrl Hlci Hcur Hdone Hsorted Hzero Howned Hownedc
                      Hrun Hrunc Hend Hstart Hsum Hlocal].
  simpl in *.
  unfold BlockSparseMatrix.walk_step. rewrite E. simpl.
  rewrite (store_lt local_col_indices_array) by lia. simpl.
  destruct (decide (cur < o)) as [Hlt | Hge].
  - rewrite bool_decide_eq_true_2 by lia. simpl.
    rewrite !store_lt by lia. simpl.
    rewrite bool_decide_eq_true_2 by reflexivity. simpl.
    eexists. split; [reflexivity |].
    constructor; simpl.
    + rewrite length_insert. exact Hbci.
    + rewrite length_insert. exact Hlrl.
    + rewrite length_insert. exact Hlci.
    + exact Hblock.
    + intros k q Eq. apply lookup_snoc_Some in Eq as [[_ Eq] | [_ <-]].
      * specialize (Hdone _ _ Eq). lia.
      * simpl. lia.
    + apply (sorted_by_block_snoc _ _ cur); auto; simpl; lia.
    + intros b Hb. rewrite get_insert_ne by lia. apply Hzero. lia.
    + intros b Hb. rewrite owned_snoc. simpl.
      destruct (decide (o = b)) as [-> | _]; [lia |].
      destruct (decide (b = cur)) as [-> | Hne].
      * rewrite get_insert_eq by lia. lia.
      * rewrite get_insert_ne by lia.
        destruct (decide (b < cur)) as [Hb' | Hb'].
        -- rewrite Howned by lia. lia.
        -- rewrite Hzero by lia. rewrite owned_none; [reflexivity |].
           intros k q Eq. specialize (Hdone _ _ Eq). lia.
    + rewrite owned_snoc. simpl. rewrite decide_True by reflexivity.
      rewrite owned_none; [reflexivity |].
      intros k q Eq. specialize (Hdone _ _ Eq). lia.
    + intros b k Hb. rewrite snoc_owner.
      rewrite (get_insert_ne bci) by lia.
      destruct (decide (b = cur)) as [-> | Hne].
      * rewrite get_insert_eq by lia. rewrite Hrunc. split; [| tauto].
        intros [Hk | [_ ->]]; [exact Hk | lia].
      * rewrite get_insert_ne by lia.
        destruct (decide (b < cur)) as [Hb' | Hb'].
        -- rewrite (Hrun b k Hb'). split; [| tauto].
           intros [Hk | [_ ->]]; [exact Hk | lia].
        -- rewrite Hzero by lia. split; [| lia].
           intros [[l' Eq] | [_ ->]]; [| lia].
           specialize (Hdone _ _ Eq). simpl in Hdone. lia.
    + intros k. rewrite snoc_owner. rewrite get_insert_eq by lia.
      split.
      * intros [[l' Eq] | [-> _]]; [| lia].
        specialize (Hdone _ _ Eq). simpl in Hdone. lia.
      * intros Hk. right. split; [lia | reflexivity].
    + rewrite get_insert_eq, length_app by lia. simpl. lia.
    + discriminate.
    + rewrite sum_list_insert_zero.
      * rewrite length_app. simpl. lia.
      * rewrite lookup_get by lia. rewrite Hzero by lia. reflexivity.
    + intros k q Eq. apply lookup_snoc_Some in Eq as [[Hk Eq] | [-> <-]].
      * rewrite list_lookup_insert_ne by lia. eauto.
      * simpl. apply list_lookup_insert_eq. lia.
  - assert (o = cur) as -> by lia.
    rewrite bool_decide_eq_false_2 by lia. simpl.
    rewrite bool_decide_eq_true_2 by reflexivity. simpl.
    eexists. split; [reflexivity |].
    constructor; simpl.
    + exact Hbci.
    + exact Hlrl.
    + rewrite length_insert. exact Hlci.
    + exact Hcur.
    + intros k q Eq. apply lookup_snoc_Some in Eq as [[_ Eq] | [_ <-]].
      * eauto.
      * simpl. lia.
    + apply (sorted_by_block_snoc _ _ cur); auto.
    + exact Hzero.
    + intros b Hb. rewrite owned_snoc. simpl.
      rewrite decide_False by lia. rewrite Howned by lia. lia.
    + rewrite owned_snoc. simpl. rewrite decide_True by reflexivity. lia.
    + intros b k Hb. rewrite snoc_owner, (Hrun b k Hb). split; [| tauto].
      intros [Hk | [_ ->]]; [exact Hk | lia].
    + intros k. rewrite snoc_owner, Hrunc. split.
      * intros [Hk | [-> _]]; lia.
      * intros Hk. destruct (decide (k = length done)); [right; auto | left; lia].
    + rewrite length_app. simpl. lia.
    + discriminate.
    + rewrite length_app. simpl. lia.
    + intros k q Eq. apply lookup_snoc_Some in Eq as [[Hk Eq] | [-> <-]].
      * rewrite list_lookup_insert_ne by lia. eauto.
      * simpl. apply list_lookup_insert_eq. lia.
Qed.

Lemma current_le_next done w p pairs :
  walk_inv n_block_cols n_cols done w ->
  sorted_by_block (done ++ p :: pairs) ->
  BlockSparseMatrix.current_block w <= p.1.
Proof.
  intros Hinv Hsorted.
  destruct (decide (BlockSparseMatrix.row_length w = 0)) as [Hz | Hnz].
  - rewrite (inv_start _ _ _ _ Hinv Hz). lia.
  - pose proof (inv_end _ _ _ _ Hinv) as Hend.
    destruct (proj2 (inv_run_current _ _ _ _ Hinv (length done - 1))) as [l El];
      [lia |].
    apply (Hsorted (length done - 1) (length done)
             (BlockSparseMatrix.current_block w, l) p).
    + lia.
    + apply lookup_app_l_Some. exact El.
    + rewrite lookup_app_r by lia. rewrite Nat.sub_diag. reflexivity.
Qed.

Lemma walk_loop_sorted rest : forall pairs done w,
  walk_inv n_block_cols n_cols done w ->
  length done + length rest <= n_cols ->
  resolved cbi rest pairs ->
  sorted_by_block (done ++ pairs) ->
  exists w', BlockSparseMatrix.walk_loop cbi (length done) rest w = Ok w' /\
    walk_inv n_block_cols n_cols (done ++ pairs) w'.
Proof.
  induction rest as [|col rest IH]; intros pairs done w Hinv Hlen Hres Hsorted;
    inversion Hres as [|? p ? pairs' Ep Hres']; subst; simpl in *.
  - rewrite app_nil_r. eauto.
  - destruct (walk_step_sorted done w col p Hinv) as (w1 & -> & Hinv1);
      [lia | exact Ep | eapply current_le_next; eauto |].
    simpl. rewrite cons_middle, app_assoc in Hsorted |- *.
    replace (S (length done)) with (length (done ++ [p]))
      by (rewrite length_app; simpl; lia).
    apply IH; auto. rewrite length_app. simpl. lia.
Qed.

Lemma walk_loop_cases rest : forall done w,
  walk_inv n_block_cols n_cols done w ->
  length done + length rest <= n_cols ->
  (exists w' pairs, resolved cbi rest pairs /\
     BlockSparseMatrix.walk_loop cbi (length done) rest w = Ok w' /\
     walk_inv n_block_cols n_cols (done ++ pairs) w') \/
  (exists e, BlockSparseMatrix.walk_loop cbi (length done) rest w = Raise e /\
     (e = ExcInternalError \/ ~ exists pairs, resolved cbi rest pairs)).
Proof.
  induction rest as [|col rest IH]; intros done w Hinv Hlen; simpl in *.
  - left. exists w, []. rewrite app_nil_r.
    split; [constructor | split; [reflexivity | exact Hinv]].
  - destruct (global_to_local_cases cbi col) as [[p Ep] | [e Ee]].
    + destruct (decide (p.1 < BlockSparseMatrix.current_block w)) as [Hlt | Hge].
      * right. exists ExcInternalError.
        rewrite (walk_step_unsorted done w col p); auto; lia.
      * destruct (walk_step_sorted done w col p Hinv) as (w1 & -> & Hinv1);
          [lia | exact Ep | lia |].
        simpl.
        replace (S (length done)) with (length (done ++ [p]))
          by (rewrite length_app; simpl; lia).
        destruct (IH (done ++ [p]) w1 Hinv1) as
          [(w' & pairs & Hres & Hloop & Hinv') | (e & Hloop & He)].
        -- rewrite length_app. simpl. lia.
        -- left. exists w', (p :: pairs). split; [| split].
           ++ constructor; assumption.
           ++ exact Hloop.
           ++ rewrite cons_middle, app_assoc. exact Hinv'.
        -- right. exists e. split; [exact Hloop |].
           destruct He as [-> | Hno]; [left; reflexivity | right].
           intros [pairs Hres]. apply Hno.
           inversion Hres; subst. eauto.
    + right. exists e. rewrite (walk_step_unresolved _ _ _ _ Ee). split; [reflexivity |].
      right. intros [pairs Hres]. inversion Hres as [|? p ? ? Ep]; subst. congruence.
Qed.

Lemma walk_inv_initial (bci lci : list nat) :
  0 < n_block_cols ->
  length bci = n_block_cols -> length lci = n_cols ->
  walk_inv n_block_cols n_cols []
    (BlockSparseMatrix.Walk 0 0 (<[0 := 0]> bci) (replicate n_block_cols 0) lci).
Proof.
  intros Hpos Hbci Hlci. constructor; simpl.
  - rewrite length_insert. exact Hbci.
  - apply length_replicate.
  - exact Hlci.
  - exact Hpos.
  - intros k p [=].
  - intros k j p q _ [=].
  - intros b _. unfold get. destruct (decide (b < n_block_cols)).
    + rewrite lookup_replicate_2 by lia. reflexivity.
    + rewrite (proj1 (lookup_replicate_None _ _ _)) by lia. reflexivity.
  - intros b Hb. lia.
  - reflexivity.
  - intros b k Hb. lia.
  - intros k. rewrite get_insert_eq by lia. split; [intros [l [=]] | lia].
  - rewrite get_insert_eq by lia. reflexivity.
  - reflexivity.
  - rewrite sum_list_replicate. lia.
  - intros k p [=].
Qed.

Lemma walk_inv_final done w :
  walk_inv n_block_cols n_cols done w -> length done = n_cols ->
  partitioned n_block_cols done
    (BlockSparseMatrix.w_block_col_indices w,
     <[BlockSparseMatrix.current_block w := BlockSparseMatrix.row_length w]>
       (BlockSparseMatrix.w_local_row_length w),
     BlockSparseMatrix.w_local_col_indices w).
Proof.
  intros Hinv Hlen. destruct w as [cur rl bci lrl lci].
  destruct Hinv as [Hbci Hlrl Hlci Hcur Hdone Hsorted Hzero Howned Hownedc
                      Hrun Hrunc Hend Hstart Hsum Hlocal].
  simpl in *. constructor; simpl.
  - exact Hbci.
  - rewrite length_insert. exact Hlrl.
  - apply list_eq. intros i. rewrite list_lookup_fmap.
    destruct (done !! i) as [p|] eqn:Ep; simpl.
    + eauto.
    + apply lookup_ge_None. apply lookup_ge_None in Ep. lia.
  - intros b Hb. destruct (decide (b = cur)) as [-> | Hne].
    + rewrite get_insert_eq by lia. exact Hownedc.
    + rewrite get_insert_ne by lia. destruct (decide (b < cur)).
      * apply Howned. lia.
      * rewrite Hzero by lia. rewrite owned_none; [reflexivity |].
        intros k q Eq. specialize (Hdone _ _ Eq). lia.
  - intros b k. destruct (decide (b = cur)) as [-> | Hne].
    + rewrite get_insert_eq by lia. apply Hrunc.
    + rewrite get_insert_ne by lia. destruct (decide (b < cur)).
      * apply Hrun. lia.
      * rewrite Hzero by lia. split; [| lia].
        intros [l Eq]. specialize (Hdone _ _ Eq). simpl in Hdone. lia.
  - rewrite sum_list_insert_zero; [lia |].
    rewrite lookup_get by lia. rewrite Hzero by lia. reflexivity.
Qed.

End ColumnWalk.

(** ** The scratch vectors after the walk *)

Section ColumnWalkResult.

Context {B : Type}.

Implicit Types (m : BlockSparseMatrix.t B) (cols : list nat).

(** The variables of the walk when the loop is entered. *)
Local Abbreviation start m cols :=
  (BlockSparseMatrix.Walk 0 0
     (<[0 := 0]> (resize (BlockSparseMatrix.n_block_cols m)
                    (BlockSparseMatrix.block_col_indices m)))
     (replicate (BlockSparseMatrix.n_block_cols m) 0)
     (resize (length cols) (BlockSparseMatrix.local_col_indices m))).

Lemma column_walk_no_block_cols m cols :
  BlockSparseMatrix.n_block_cols m = 0 ->
  BlockSparseMatrix.column_walk m cols = Undefined block_col_indices_array.
Proof.
  intros E. unfold BlockSparseMatrix.column_walk. rewrite E. reflexivity.
Qed.

Lemma walk_inv_start m cols :
  0 < BlockSparseMatrix.n_block_cols m ->
  walk_inv (BlockSparseMatrix.n_block_cols m) (length cols) [] (start m cols).
Proof.
  intros Hpos.
  apply (walk_inv_initial (BlockSparseMatrix.column_block_indices m));
    auto using length_resize.
Qed.

Lemma column_walk_loop_Raise m cols e :
  0 < BlockSparseMatrix.n_block_cols m ->
  BlockSparseMatrix.walk_loop (BlockSparseMatrix.column_block_indices m) 0 cols
    (start m cols) = Raise e ->
  BlockSparseMatrix.column_walk m cols = Raise e.
Proof.
  intros Hpos Hloop. unfold BlockSparseMatrix.column_walk.
  rewrite clear_row_length_spec by (rewrite length_resize; lia). simpl.
  rewrite (store_lt block_col_indices_array) by (rewrite length_resize; lia).
  simpl. rewrite Hloop. reflexivity.
Qed.

Lemma column_walk_loop_Ok m cols pairs w :
  0 < BlockSparseMatrix.n_block_cols m ->
  BlockSparseMatrix.walk_loop (BlockSparseMatrix.column_block_indices m) 0 cols
    (start m cols) = Ok w ->
  walk_inv (BlockSparseMatrix.n_block_cols m) (length cols) pairs w ->
  length pairs = length cols ->
  exists sc, BlockSparseMatrix.column_walk m cols = Ok sc /\
    partitioned (BlockSparseMatrix.n_block_cols m) pairs sc.
Proof.
  intros Hpos Hloop Hinv Hlen.
  pose proof (walk_inv_final _ _ _ _ Hinv Hlen) as Hpart.
  eexists. split; [| exact Hpart].
  unfold BlockSparseMatrix.column_walk.
  rewrite clear_row_length_spec by (rewrite length_resize; lia). simpl.
  rewrite (store_lt block_col_indices_array) by (rewrite length_resize; lia).
  simpl. rewrite Hloop. simpl.
  pose proof (inv_current _ _ _ _ Hinv) as Hcur.
  pose proof (inv_lrl _ _ _ _ Hinv) as Hlrl.
  rewrite (store_lt local_row_length_array) by (rewrite Hlrl; exact Hcur).
  simpl. rewrite bool_decide_eq_true_2 by exact Hcur. simpl.
  rewrite sum_row_length_spec by (rewrite length_insert, Hlrl; reflexivity).
  pose proof (part_sum _ _ _ Hpart) as Hsum. simpl in Hsum |- *.
  rewrite drop_0, Hsum, Hlen.
  rewrite bool_decide_eq_true_2 by reflexivity. reflexivity.
Qed.

(** On at least one block column, resolved and sorted column indices are
    partitioned by the walk. *)
Lemma column_walk_sorted m cols pairs :
  0 < BlockSparseMatrix.n_block_cols m ->
  resolved (BlockSparseMatrix.column_block_indices m) cols pairs ->
  sorted_by_block pairs ->
  exists sc, BlockSparseMatrix.column_walk m cols = Ok sc /\
    partitioned (BlockSparseMatrix.n_block_cols m) pairs sc.
Proof.
  intros Hpos Hres Hsorted.
  destruct (walk_loop_sorted (BlockSparseMatrix.column_block_indices m)
              (length cols) cols pairs [] (start m cols)
              (walk_inv_start m cols Hpos) (Nat.le_refl _) Hres Hsorted)
    as (w & Hloop & Hinv).
  apply (column_walk_loop_Ok m cols pairs w); auto.
  symmetry. eapply resolved_length, Hres.
Qed.

(** A walk that completes has resolved every column index, found them
    sorted, and partitioned them. *)
Lemma column_walk_Ok m cols sc :
  BlockSparseMatrix.column_walk m cols = Ok sc ->
  0 < BlockSparseMatrix.n_block_cols m /\
  exists pairs,
    resolved (BlockSparseMatrix.column_block_indices m) cols pairs /\
    sorted_by_block pairs /\
    partitioned (BlockSparseMatrix.n_block_cols m) pairs sc.
Proof.
  intros Hwalk.
  destruct (decide (BlockSparseMatrix.n_block_cols m = 0)) as [Hz | Hnz].
  { rewrite (column_walk_no_block_cols m cols Hz) in Hwalk. discriminate. }
  assert (0 < BlockSparseMatrix.n_block_cols m) as Hpos by lia.
  split; [exact Hpos |].
  destruct (walk_loop_cases (BlockSparseMatrix.column_block_indices m)
              (length cols) cols [] (start m cols) (walk_inv_start m cols Hpos))
    as [(w & pairs & Hres & Hloop & Hinv) | (e & Hloop & _)]; [simpl; lia | |].
  - exists pairs. split; [exact Hres |]. split; [exact (inv_sorted _ _ _ _ Hinv) |].
    destruct (column_walk_loop_Ok m cols pairs w Hpos Hloop Hinv)
      as (sc' & Hwalk' & Hpart).
    + symmetry. eapply resolved_length, Hres.
    + congruence.
  - rewrite (column_walk_loop_Raise m cols e Hpos Hloop) in Hwalk. discriminate.
Qed.

(** Resolved column indices that are not sorted stop the walk with an
    internal error. *)
Lemma column_walk_unsorted m cols pairs :
  resolved (BlockSparseMatrix.column_block_indices m) cols pairs ->
  unsorted_by_block pairs ->
  BlockSparseMatrix.column_walk m cols = Raise ExcInternalError.
Proof.
  intros Hres (k & j & p & q & Hkj & Ep & Eq & Hlt).
  assert (0 < BlockSparseMatrix.n_block_cols m) as Hpos.
  { destruct (Forall2_lookup_r _ _ _ _ _ Hres Ep) as (c & _ & Ec).
    apply global_to_local_block in Ec.
    unfold BlockSparseMatrix.n_block_cols. lia. }
  destruct (walk_loop_cases (BlockSparseMatrix.column_block_indices m)
              (length cols) cols [] (start m cols) (walk_inv_start m cols Hpos))
    as [(w & pairs' & Hres' & Hloop & Hinv) | (e & Hloop & He)]; [simpl; lia | |].
  - rewrite (resolved_unique _ _ _ _ Hres' Hres) in Hinv.
    pose proof (inv_sorted _ _ _ _ Hinv k j p q Hkj Ep Eq). lia.
  - destruct He as [-> | Hno].
    + apply column_walk_loop_Raise; auto.
    + destruct Hno. eauto.
Qed.

(** On at least one block column the walk stays inside the scratch
    vectors, whatever the column indices. *)
Lemma column_walk_in_bounds m cols :
  0 < BlockSparseMatrix.n_block_cols m ->
  scratch_in_bounds (BlockSparseMatrix.column_walk m cols) = true.
Proof.
  intros Hpos.
  destruct (walk_loop_cases (BlockSparseMatrix.column_block_indices m)
              (length cols) cols [] (start m cols) (walk_inv_start m cols Hpos))
    as [(w & pairs & Hres & Hloop & Hinv) | (e & Hloop & _)]; [simpl; lia | |].
  - destruct (column_walk_loop_Ok m cols pairs w Hpos Hloop Hinv)
      as (sc & -> & _); [| reflexivity].
    symmetry. eapply resolved_length, Hres.
  - rewrite (column_walk_loop_Raise m cols e Hpos Hloop). reflexivity.
Qed.

End ColumnWalkResult.

(** ** The calls forwarded to the blocks *)

Lemma scratch_in_bounds_bind {A C} (c : outcome A) (k : A -> outcome C) :
  scratch_in_bounds c = true ->
  (forall a, c = Ok a -> scratch_in_bounds (k a) = true) ->
  scratch_in_bounds (c ≫= k) = true.
Proof. destruct c as [a|e|n]; simpl; auto. Qed.

Lemma load_get name (a : list nat) i :
  i < length a -> load name a i = Ok (get a i).
Proof. intros Hi. unfold load. rewrite lookup_get by exact Hi. reflexivity. Qed.

Lemma slice_le {A} name (a : list A) off len :
  off + len <= length a -> slice name a off len = Ok (take len (drop off a)).
Proof. intros Hle. unfold slice. rewrite bool_decide_eq_true_2; auto. Qed.

Lemma partitioned_run_in_bounds n_block_cols pairs sc b :
  partitioned n_block_cols pairs sc -> b < n_block_cols ->
  get sc.1.2 b <> 0 ->
  get sc.1.1 b + get sc.1.2 b <= length pairs.
Proof.
  intros Hpart Hb Hnz.
  destruct (proj2 (part_run _ _ _ Hpart b (get sc.1.1 b + get sc.1.2 b - 1)))
    as [l El]; [lia |].
  apply lookup_lt_Some in El. lia.
Qed.

Section Dispatch.

Context {T B : Type} `{SparseMatrix T B}.

Implicit Types (m : BlockSparseMatrix.t B) (values : list T)
  (grid : nat -> nat -> B) (sc : BlockSparseMatrix.scratch).

Lemma block_col_loop_forwarded o n_block_cols pairs sc i row_index values k :
  forall block_col grid,
  partitioned n_block_cols pairs sc ->
  block_col + k <= n_block_cols ->
  length pairs * i + length pairs <= length values ->
  BlockSparseMatrix.block_col_loop o sc (length pairs) i row_index values
    block_col k grid =
  Ok (foldl (forward o) grid
        (forwarded_to sc (length pairs) i row_index values <$>
           filter (fun bc => get sc.1.2 bc <> 0) (seq block_col k))).
Proof.
  destruct sc as [[bci lrl] lci].
  induction k as [|k IH]; intros block_col grid Hpart Hk Hvalues; simpl.
  - reflexivity.
  - pose proof (part_block_col_indices _ _ _ Hpart) as Hbci.
    pose proof (part_local_row_length _ _ _ Hpart) as Hlrl.
    pose proof (part_local_col_indices _ _ _ Hpart) as Hlci.
    pose proof (partitioned_run_in_bounds _ _ _ block_col Hpart) as Hrun.
    simpl in Hbci, Hlrl, Hlci, Hrun.
    rewrite (load_get local_row_length_array) by lia. simpl.
    case_bool_decide as Hlen.
    + rewrite filter_cons_False by tauto. apply IH; auto; lia.
    + rewrite filter_cons_True by exact Hlen. simpl.
      rewrite (load_get block_col_indices_array) by lia. simpl.
      specialize (Hrun ltac:(lia) Hlen).
      assert (length lci = length pairs) as Hlen_lci
        by (rewrite Hlci; apply length_fmap).
      unfold slice. rewrite !bool_decide_eq_true_2 by lia. simpl.
      rewrite IH by (auto; lia). reflexivity.
Qed.

Lemma row_loop_forwarded o rbi n_block_cols pairs sc values rows :
  forall i row_pairs grid,
  partitioned n_block_cols pairs sc ->
  resolved rbi rows row_pairs ->
  length pairs * (i + length rows) <= length values ->
  BlockSparseMatrix.row_loop o rbi n_block_cols sc (length pairs) i rows values
    grid =
  Ok (foldl (forward o) grid
        (forwarded_calls sc n_block_cols (length pairs) i row_pairs values)).
Proof.
  induction rows as [|row rows IH]; intros i row_pairs grid Hpart Hres Hvalues;
    inversion Hres as [|? rp ? row_pairs' Erp Hres']; subst; simpl in *.
  - reflexivity.
  - rewrite Erp. simpl.
    rewrite (block_col_loop_forwarded o n_block_cols pairs) by (auto; nia).
    simpl. rewrite (IH (S i) row_pairs') by (auto; nia).
    rewrite foldl_app. reflexivity.
Qed.

Lemma block_col_loop_in_bounds o n_block_cols pairs sc n_cols i row_index values k :
  forall block_col grid,
  partitioned n_block_cols pairs sc ->
  block_col + k <= n_block_cols ->
  scratch_in_bounds
    (BlockSparseMatrix.block_col_loop o sc n_cols i row_index values
       block_col k grid) = true.
Proof.
  destruct sc as [[bci lrl] lci].
  induction k as [|k IH]; intros block_col grid Hpart Hk; simpl.
  - reflexivity.
  - pose proof (part_block_col_indices _ _ _ Hpart) as Hbci.
    pose proof (part_local_row_length _ _ _ Hpart) as Hlrl.
    pose proof (part_local_col_indices _ _ _ Hpart) as Hlci.
    pose proof (partitioned_run_in_bounds _ _ _ block_col Hpart) as Hrun.
    simpl in Hbci, Hlrl, Hlci, Hrun.
    rewrite (load_get local_row_length_array) by lia. simpl.
    case_bool_decide as Hlen.
    + apply IH; auto; lia.
    + rewrite (load_get block_col_indices_array) by lia. simpl.
      specialize (Hrun ltac:(lia) Hlen).
      assert (length lci = length pairs) as Hlen_lci
        by (rewrite Hlci; apply length_fmap).
      rewrite (slice_le local_col_indices_array) by lia.
      simpl. unfold slice. case_bool_decide; simpl; [| reflexivity].
      apply IH; auto; lia.
Qed.

Lemma row_loop_in_bounds o rbi n_block_cols pairs sc n_cols values rows :
  forall i grid,
  partitioned n_block_cols pairs sc ->
  scratch_in_bounds
    (BlockSparseMatrix.row_loop o rbi n_block_cols sc n_cols i rows values grid)
  = true.
Proof.
  induction rows as [|row rows IH]; intros i grid Hpart; simpl.
  - reflexivity.
  - destruct (global_to_local_cases rbi row) as [[rp ->] | [e ->]]; simpl;
      [| reflexivity].
    apply scratch_in_bounds_bind.
    + apply (block_col_loop_in_bounds o n_block_cols pairs); auto.
    + intros grid' _. apply IH. exact Hpart.
Qed.

(** A block no call is addressed to is left as it was. *)
Lemma forward_other o (calls : list (forwarded T)) : forall grid row col,
  Forall (fun c => to_block_row c <> row \/ to_block_col c <> col) calls ->
  foldl (forward o) grid calls row col = grid row col.
Proof.
  induction calls as [|c calls IH]; intros grid row col Hall; simpl.
  - reflexivity.
  - inversion Hall as [|? ? Hc Hall']; subst. rewrite IH by exact Hall'.
    unfold forward, BlockSparseMatrix.call_block.
    rewrite bool_decide_eq_false_2; [reflexivity | intros [-> ->]; tauto].
Qed.

Lemma forwarded_calls_run sc n_block_cols n_cols values row_pairs : forall i,
  Forall (fun c => get sc.1.2 (to_block_col c) <> 0)
    (forwarded_calls sc n_block_cols n_cols i row_pairs values).
Proof.
  induction row_pairs as [|rp row_pairs IH]; intros i; simpl.
  - constructor.
  - apply Forall_app. split; [| apply IH].
    unfold forwarded_for_row. apply Forall_fmap, Forall_forall.
    intros bc Hbc. apply list_elem_of_filter in Hbc as [Hnz _]. exact Hnz.
Qed.

End Dispatch.

(** ** One call per entry *)

(** The elements of a list that satisfy a predicate true exactly on the
    positions [off] to [off + len - 1]. *)
Lemma filter_interval {A} (P : A -> Prop) `{forall x, Decision (P x)}
    (xs : list A) : forall off len,
  (forall k x, xs !! k = Some x -> P x <-> off <= k < off + len) ->
  filter P xs = take len (drop off xs).
Proof.
  induction xs as [|x xs IH]; intros off len Hall.
  - rewrite drop_nil, take_nil. reflexivity.
  - pose proof (Hall 0 x eq_refl) as Hx.
    destruct off as [|off].
    + destruct len as [|len].
      * rewrite filter_cons_False by (rewrite Hx; lia).
        rewrite (IH 0 0); [reflexivity |].
        intros k y Ey. rewrite (Hall (S k) y Ey). lia.
      * rewrite filter_cons_True by (rewrite Hx; lia).
        simpl. f_equal. rewrite (IH 0 len); [reflexivity |].
        intros k y Ey. rewrite (Hall (S k) y Ey). lia.
    + rewrite filter_cons_False by (rewrite Hx; lia).
      simpl. apply IH. intros k y Ey. rewrite (Hall (S k) y Ey). lia.
Qed.

Section EachElement.

Context {T B : Type} `{SparseMatrix T B}.

Implicit Types (m : BlockSparseMatrix.t B) (values : list T)
  (grid : nat -> nat -> B) (sc : BlockSparseMatrix.scratch).

Lemma base_element_resolved o m i j value rp cp :
  BlockIndices.global_to_local (BlockSparseMatrix.row_block_indices m) i = Ok rp ->
  BlockIndices.global_to_local (BlockSparseMatrix.column_block_indices m) j = Ok cp ->
  BlockSparseMatrix.base_element o m i j value =
  Ok (BlockSparseMatrix.with_blocks m
        (entry_call o rp (BlockSparseMatrix.sub_objects m) (cp, value))).
Proof.
  intros Er Ec. unfold BlockSparseMatrix.base_element. rewrite Er. simpl.
  rewrite Ec. reflexivity.
Qed.

Lemma each_col_entries o n i row rp values cols : forall pairs j m,
  BlockIndices.global_to_local (BlockSparseMatrix.row_block_indices m) row = Ok rp ->
  resolved (BlockSparseMatrix.column_block_indices m) cols pairs ->
  n * i + j + length cols <= length values ->
  BlockSparseMatrix.each_col o n i row j cols values m =
  Ok (BlockSparseMatrix.with_blocks m
        (foldl (entry_call o rp) (BlockSparseMatrix.sub_objects m)
           (zip pairs (drop (n * i + j) values)))).
Proof.
  induction cols as [|col cols IH]; intros pairs j m Er Hres Hlen;
    inversion Hres as [|? cp ? pairs' Ec Hres']; subst; simpl in *.
  - destruct m; reflexivity.
  - destruct (lookup_lt_is_Some_2 values (n * i + j)) as [v Ev]; [lia |].
    rewrite (proj2 (load_Ok values_array values _ v) Ev). simpl.
    rewrite (base_element_resolved o m row col v rp cp Er Ec). simpl.
    rewrite (IH pairs' (S j)); [| exact Er | exact Hres' | lia].
    rewrite (drop_S _ _ _ Ev). simpl.
    replace (n * i + S j) with (S (n * i + j)) by lia. reflexivity.
Qed.

Lemma each_row_entries o values cols pairs rows : forall row_pairs i m,
  resolved (BlockSparseMatrix.row_block_indices m) rows row_pairs ->
  resolved (BlockSparseMatrix.column_block_indices m) cols pairs ->
  length cols * (i + length rows) <= length values ->
  BlockSparseMatrix.each_row o i rows cols values m =
  Ok (BlockSparseMatrix.with_blocks m
        (entry_calls o (length cols) i row_pairs pairs values
           (BlockSparseMatrix.sub_objects m))).
Proof.
  induction rows as [|row rows IH]; intros row_pairs i m Hrows Hcols Hlen;
    inversion Hrows as [|? rp ? row_pairs' Er Hrows']; subst; simpl in *.
  - destruct m; reflexivity.
  - rewrite (each_col_entries o _ i row rp values cols pairs 0 m Er Hcols)
      by nia.
    simpl. rewrite (IH row_pairs' (S i)); [| exact Hrows' | exact Hcols | nia].
    rewrite Nat.add_0_r. reflexivity.
Qed.

(** The block at [(row, col)] after the calls forwarded for one row of
    the value block. *)
Lemma forwarded_for_row_at o sc n_cols i row_index values
    (P : nat -> Prop) `{forall x, Decision (P x)} k : forall a grid row col,
  foldl (forward o) grid
    (forwarded_to sc n_cols i row_index values <$> filter P (seq a k)) row col =
  if bool_decide (row = row_index.1 /\ a <= col < a + k /\ P col)
  then row_op o row_index.2
         (local_cols (forwarded_to sc n_cols i row_index values col))
         (row_values (forwarded_to sc n_cols i row_index values col))
         (grid row col)
  else grid row col.
Proof.
  induction k as [|k IH]; intros a grid row col; simpl.
  - rewrite bool_decide_eq_false_2 by lia. reflexivity.
  - destruct (decide (P a)) as [Ha | Ha].
    + rewrite filter_cons_True by exact Ha. simpl. rewrite IH.
      unfold forward, BlockSparseMatrix.call_block. simpl.
      destruct (decide (col = a)) as [-> | Hne].
      * rewrite (bool_decide_eq_false_2 (_ /\ S a <= a < _ /\ _)) by lia.
        repeat case_bool_decide; first [reflexivity | exfalso; intuition (auto with lia)].
      * rewrite (bool_decide_eq_false_2 (_ /\ col = a)) by tauto.
        repeat case_bool_decide; first [reflexivity | exfalso; intuition (auto with lia)].
    + rewrite filter_cons_False by exact Ha. rewrite IH.
      destruct (decide (col = a)) as [-> | Hne];
        repeat case_bool_decide;
        first [reflexivity | exfalso; intuition (auto with lia)].
Qed.

(** The block at [(row, col)] after the single-element calls for one row
    of the value block. *)
Lemma entry_call_at o row_index (xs : list (nat * nat * T)) :
  forall grid row col,
  foldl (entry_call o row_index) grid xs row col =
  if bool_decide (row = row_index.1)
  then foldl (fun b x => element_op o row_index.2 x.1.2 x.2 b) (grid row col)
         (filter (fun x => x.1.1 = col) xs)
  else grid row col.
Proof.
  induction xs as [|x xs IH]; intros grid row col; simpl.
  - case_bool_decide; reflexivity.
  - rewrite IH. unfold entry_call, BlockSparseMatrix.call_block.
    case_bool_decide as Hrow.
    + destruct (decide (x.1.1 = col)) as [Hcol | Hcol].
      * rewrite filter_cons_True by exact Hcol.
        rewrite bool_decide_eq_true_2 by auto. reflexivity.
      * rewrite filter_cons_False by exact Hcol.
        rewrite bool_decide_eq_false_2 by (intros [_ ?]; auto). reflexivity.
    + rewrite bool_decide_eq_false_2 by tauto. reflexivity.
Qed.

Lemma foldl_zip_locals (f : nat -> T -> B -> B) (pairs : list (nat * nat)) :
  forall values b,
  foldl (fun b' cv => f cv.1 cv.2 b') b (zip pairs.*2 values) =
  foldl (fun b' x => f x.1.2 x.2 b') b (zip pairs values).
Proof.
  induction pairs as [|p pairs IH]; intros [|v values] b; simpl; auto.
Qed.

Context `{!RowWise T B}.

Lemma row_op_each o row cols values b :
  row_op o row cols values b =
  foldl (fun b' cv => element_op o row cv.1 cv.2 b') b (zip cols values).
Proof. destruct o; simpl; [apply sm_set_row_each | apply sm_add_row_each]. Qed.

(** One row of the value block: the forwarded calls and the
    single-element calls leave every block the same. *)
Lemma row_agree o n_block_cols pairs sc i row_index values grid1 grid2 :
  partitioned n_block_cols pairs sc ->
  length pairs * i + length pairs <= length values ->
  (forall row col, grid1 row col = grid2 row col) ->
  forall row col,
    foldl (forward o) grid1
      (forwarded_for_row sc n_block_cols (length pairs) i row_index values)
      row col =
    foldl (entry_call o row_index) grid2
      (zip pairs (drop (length pairs * i) values)) row col.
Proof.
  intros Hpart Hlen Hgrid row col.
  unfold forwarded_for_row. rewrite forwarded_for_row_at, entry_call_at.
  rewrite (filter_interval _ _ (get sc.1.1 col) (get sc.1.2 col)).
  2:{ intros k [[b l] v] Ex. simpl.
      apply lookup_zip_with_Some in Ex as (p & v' & [= <- <-] & Ep & _).
      rewrite <- (part_run _ _ _ Hpart col k). split.
      - intros ->. eauto.
      - intros [l' El]. congruence. }
  destruct (decide (row = row_index.1)) as [-> | Hrow].
  2:{ rewrite !bool_decide_eq_false_2 by tauto. apply Hgrid. }
  rewrite (bool_decide_eq_true_2 (row_index.1 = row_index.1)) by reflexivity.
  rewrite Hgrid.
  destruct (decide (get sc.1.2 col = 0)) as [Hz | Hnz].
  - rewrite bool_decide_eq_false_2 by tauto. rewrite Hz. reflexivity.
  - assert (col < n_block_cols) as Hcol.
    { destruct (decide (col < n_block_cols)); [assumption |].
      rewrite get_ge in Hnz; [congruence |].
      rewrite (part_local_row_length _ _ _ Hpart). lia. }
    rewrite bool_decide_eq_true_2 by (repeat split; auto; lia).
    rewrite row_op_each. simpl.
    rewrite (part_local_col_indices _ _ _ Hpart).
    rewrite <- fmap_drop, <- fmap_take, foldl_zip_locals.
    rewrite (zip_with_drop pair), (zip_with_take pair), drop_drop. reflexivity.
Qed.

(** All rows: the forwarded calls and the single-element calls leave
    every block the same. *)
Lemma rows_agree o n_block_cols pairs sc values row_pairs :
  forall i grid1 grid2,
  partitioned n_block_cols pairs sc ->
  length pairs * (i + length row_pairs) <= length values ->
  (forall row col, grid1 row col = grid2 row col) ->
  forall row col,
    foldl (forward o) grid1
      (forwarded_calls sc n_block_cols (length pairs) i row_pairs values)
      row col =
    entry_calls o (length pairs) i row_pairs pairs values grid2 row col.
Proof.
  induction row_pairs as [|rp row_pairs IH]; intros i grid1 grid2 Hpart Hlen Hgrid;
    simpl in *.
  - exact Hgrid.
  - rewrite foldl_app. apply IH; [exact Hpart | nia |].
    apply (row_agree o n_block_cols); [exact Hpart | nia | exact Hgrid].
Qed.

End EachElement.

(** ** Bulk calls that complete *)

Section Completes.

Context {T B : Type} `{SparseMatrix T B}.

Implicit Types (m : BlockSparseMatrix.t B) (values : list T)
  (grid : nat -> nat -> B) (sc : BlockSparseMatrix.scratch).

(** A loop over the block columns that completes has read the values of
    every run of non-zero length inside the value array. *)
Lemma block_col_loop_Ok_bound o sc n_cols i row_index values k :
  forall block_col grid grid',
  BlockSparseMatrix.block_col_loop o sc n_cols i row_index values block_col k
    grid = Ok grid' ->
  forall b, block_col <= b < block_col + k -> b < length sc.1.2 ->
    get sc.1.2 b <> 0 ->
    n_cols * i + get sc.1.1 b + get sc.1.2 b <= length values.
Proof.
  destruct sc as [[bci lrl] lci]. simpl.
  induction k as [|k IH]; intros block_col grid grid' Hloop b Hb Hlt Hnz;
    simpl in Hloop.
  - lia.
  - apply bind_Ok in Hloop as (len & Elen & Hloop).
    apply load_Ok in Elen. pose proof (get_lookup _ _ _ Elen) as Hlen.
    case_bool_decide as Hz.
    + destruct (decide (b = block_col)) as [-> | Hne]; [congruence |].
      apply (IH _ _ _ Hloop); auto; lia.
    + apply bind_Ok in Hloop as (off & Eoff & Hloop).
      apply load_Ok in Eoff. pose proof (get_lookup _ _ _ Eoff) as Hoff.
      apply bind_Ok in Hloop as (cols & _ & Hloop).
      apply bind_Ok in Hloop as (vals & Evals & Hloop).
      apply slice_Ok in Evals as [Hvals _].
      destruct (decide (b = block_col)) as [-> | Hne].
      * rewrite Hlen, Hoff. lia.
      * apply (IH _ _ _ Hloop); auto; lia.
Qed.

(** A loop over the rows that completes has resolved every row index
    and, when there are columns, read whole rows of the value array. *)
Lemma row_loop_Ok o rbi pairs sc values rows :
  forall i grid grid',
  partitioned (length sc.1.2) pairs sc ->
  BlockSparseMatrix.row_loop o rbi (length sc.1.2) sc (length pairs) i rows
    values grid = Ok grid' ->
  (exists row_pairs, resolved rbi rows row_pairs) /\
  (length pairs * length rows = 0 \/
   length pairs * (i + length rows) <= length values).
Proof.
  induction rows as [|row rows IH]; intros i grid grid' Hpart Hloop;
    simpl in Hloop.
  - split; [exists []; constructor | left; simpl; lia].
  - apply bind_Ok in Hloop as (rp & Erp & Hloop).
    apply bind_Ok in Hloop as (grid1 & Hcols & Hloop).
    destruct (IH _ _ _ Hpart Hloop) as [[row_pairs Hres] Hbound].
    split; [exists (rp :: row_pairs); constructor; assumption |].
    destruct (decide (length pairs = 0)) as [Hz | Hnz]; [left; rewrite Hz; lia |].
    right. simpl.
    assert (length pairs * i + length pairs <= length values) as Hrow.
    { destruct (lookup_lt_is_Some_2 pairs (length pairs - 1)) as [[b l] Ep];
        [lia |].
      pose proof (proj1 (part_run _ _ _ Hpart b (length pairs - 1))
                    (ex_intro _ l Ep)) as Hrun.
      assert (get sc.1.2 b <> 0) as Hlen by lia.
      assert (b < length sc.1.2) as Hb.
      { destruct (decide (b < length sc.1.2)); [assumption |].
        rewrite get_ge in Hlen by lia. congruence. }
      pose proof (block_col_loop_Ok_bound _ _ _ _ _ _ _ _ _ _ Hcols b
                    ltac:(lia) Hb Hlen).
      lia. }
    destruct Hbound as [Hempty | Hbound]; nia.
Qed.

Context `{!RowWise T B}.

(** A bulk call that completes ends with the same matrix as one
    single-element call for each entry of the value block, row by row. *)
Lemma bulk_completes_same o m row_indices col_indices values m1 :
  BlockSparseMatrix.bulk o m row_indices col_indices values = Ok m1 ->
  exists m2,
    BlockSparseMatrix.each_element o m row_indices col_indices values = Ok m2 /\
    BlockSparseMatrix.same_matrix m1 m2.
Proof.
  intros Hbulk. unfold BlockSparseMatrix.bulk in Hbulk.
  apply bind_Ok in Hbulk as (sc & Hwalk & Hbulk).
  apply bind_Ok in Hbulk as (grid & Hrows & [= <-]).
  destruct (column_walk_Ok m col_indices sc Hwalk)
    as (Hpos & col_pairs & Hcols & Hsorted & Hpart).
  pose proof (resolved_length _ _ _ Hcols) as Hn.
  pose proof (part_local_row_length _ _ _ Hpart) as Hlrl.
  rewrite Hn, <- Hlrl in Hrows. rewrite <- Hlrl in Hpart.
  destruct (row_loop_Ok _ _ _ _ _ _ _ _ _ Hpart Hrows) as [[row_pairs Hres] Hbound].
  pose proof (resolved_length _ _ _ Hres) as Hr.
  assert (length col_pairs * (0 + length row_indices) <= length values)
    as Hvalues by (destruct Hbound; simpl; lia).
  rewrite (row_loop_forwarded o _ _ col_pairs sc values row_indices 0
             row_pairs _ Hpart Hres Hvalues) in Hrows.
  injection Hrows as <-.
  eexists. split.
  - unfold BlockSparseMatrix.each_element.
    rewrite (each_row_entries o values col_indices col_pairs
               row_indices row_pairs 0 m Hres Hcols) by (rewrite Hn; exact Hvalues).
    reflexivity.
  - split; [reflexivity |]. split; [reflexivity |].
    intros row col. unfold BlockSparseMatrix.block. simpl. rewrite Hn.
    apply (rows_agree o (length sc.1.2));
      [exact Hpart | rewrite <- Hr; exact Hvalues | reflexivity].
Qed.

End Completes.

(** ** The instances *)

#[global] Instance entry_log_row_wise (T : Type) : RowWise T (entry_log T).
Proof.
  assert (Heach : forall (o : operation) row (xs : list (nat * T)) (b : entry_log T),
    b ++ ((fun cv => (o, row, cv.1, cv.2)) <$> xs) =
    foldl (fun b' cv => b' ++ [(o, row, cv.1, cv.2)]) b xs).
  { intros o row xs. induction xs as [|x xs IH]; intros b; simpl.
    - apply app_nil_r.
    - rewrite <- IH, <- app_assoc. reflexivity. }
  split; intros row cols values b; simpl; apply Heach.
Qed.

Lemma nondecreasing_sorted pairs :
  nondecreasing 0 pairs = true -> sorted_by_block pairs.
Proof.
  assert (Hgen : forall pairs bound, nondecreasing bound pairs = true ->
    sorted_by_block pairs /\ forall k p, pairs !! k = Some p -> bound <= p.1).
  { clear pairs. induction pairs as [|p pairs IH]; intros bound; simpl.
    - intros _. split; [intros k j p q _ [=] | intros k p [=]].
    - intros [Hb Hrest]%andb_prop. apply bool_decide_eq_true in Hb.
      destruct (IH _ Hrest) as [Hsorted Hle]. split.
      + intros [|k] [|j] q1 q2 Hkj E1 E2; simpl in *; try lia.
        * injection E1 as <-. eauto.
        * apply (Hsorted k j); auto; lia.
      + intros [|k] q E; simpl in E.
        * injection E as <-. exact Hb.
        * specialize (Hle _ _ E). lia. }
  intros Hnd. apply (Hgen pairs 0 Hnd).
Qed.

(** ** The claims on the bulk calls *)

Section BulkClaims.

Context {T B : Type} `{SparseMatrix T B}.

Implicit Types (m : BlockSparseMatrix.t B) (values : list T)
  (row_indices col_indices : list nat).

(** C2. On a matrix with at least one block column, the walk over column
    indices that are sorted by increasing owning block column (the walk of
    the bulk [set] and of the bulk [add]) ends with the scratch vectors
    describing one contiguous run per block column: for every block column
    [b], [local_row_length[b]] is the number of column indices [b] owns,
    these are the column indices at the positions from
    [block_col_indices[b]] on, [local_col_indices] holds the local index
    of every column index, and the run lengths sum to [n_cols]. *)
Theorem walk_partitions_sorted_columns m col_indices col_pairs :
  0 < BlockSparseMatrix.n_block_cols m ->
  resolved (BlockSparseMatrix.column_block_indices m) col_indices col_pairs ->
  sorted_by_block col_pairs ->
  exists bci lrl lci,
    BlockSparseMatrix.column_walk m col_indices = Ok (bci, lrl, lci) /\
    (forall b, b < BlockSparseMatrix.n_block_cols m ->
       get lrl b = owned b col_pairs) /\
    (forall b j, b < BlockSparseMatrix.n_block_cols m ->
       (exists l, col_pairs !! j = Some (b, l)) <->
       get bci b <= j < get bci b + get lrl b) /\
    lci = col_pairs.*2 /\
    sum_list (take (BlockSparseMatrix.n_block_cols m) lrl) = length col_indices.
Proof.
  intros Hpos Hres Hsorted.
  destruct (column_walk_sorted m col_indices col_pairs Hpos Hres Hsorted)
    as ([[bci lrl] lci] & Hwalk & Hpart).
  exists bci, lrl, lci. split; [exact Hwalk |].
  destruct Hpart as [Hbci Hlrl Hlci Howned Hrun Hsum]. simpl in *.
  split; [exact Howned |].
  split; [intros b j _; apply Hrun |].
  split; [exact Hlci |].
  rewrite take_ge by lia. rewrite Hsum. symmetry. eapply resolved_length, Hres.
Qed.

(** C3. After the walk, a bulk [set] or [add] resolves each row index on
    its own and forwards, row by row, one single-row call for each block
    column with a run of non-zero length: to block
    [(row_index.first, block_col)], with the local row, the local column
    indices of the run and the values from offset
    [n_cols*i + block_col_indices[block_col]] on. No other call is made:
    the blocks of a block column with a run of length zero are as
    before. *)
Theorem bulk_forwards_one_call_per_run o m row_indices col_indices values
    sc row_pairs :
  BlockSparseMatrix.column_walk m col_indices = Ok sc ->
  resolved (BlockSparseMatrix.row_block_indices m) row_indices row_pairs ->
  length row_indices * length col_indices <= length values ->
  exists m',
    BlockSparseMatrix.bulk o m row_indices col_indices values = Ok m' /\
    BlockSparseMatrix.sub_objects m' =
      foldl (forward o) (BlockSparseMatrix.sub_objects m)
        (forwarded_calls sc (BlockSparseMatrix.n_block_cols m)
           (length col_indices) 0 row_pairs values) /\
    (BlockSparseMatrix.block_col_indices m',
     BlockSparseMatrix.local_row_length m',
     BlockSparseMatrix.local_col_indices m') = sc /\
    forall row col, get sc.1.2 col = 0 ->
      BlockSparseMatrix.block m' row col = BlockSparseMatrix.block m row col.
Proof.
  intros Hwalk Hrows Hlen.
  destruct (column_walk_Ok m col_indices sc Hwalk)
    as (Hpos & col_pairs & Hcols & Hsorted & Hpart).
  pose proof (resolved_length _ _ _ Hcols) as Hn.
  pose proof (resolved_length _ _ _ Hrows) as Hr.
  eexists. split.
  - unfold BlockSparseMatrix.bulk. rewrite Hwalk. simpl. rewrite Hn.
    rewrite (row_loop_forwarded o _ _ col_pairs sc values row_indices 0
               row_pairs _ Hpart Hrows) by (simpl; nia).
    reflexivity.
  - simpl. rewrite Hn. split; [reflexivity |]. split.
    + destruct sc as [[bci lrl] lci]. reflexivity.
    + intros row col Hz. unfold BlockSparseMatrix.block. simpl.
      apply forward_other.
      eapply Forall_impl; [apply forwarded_calls_run |].
      simpl. intros c Hc. right. intros E. rewrite E in Hc. contradiction.
Qed.

(** C4. A bulk [set] or [add] whose column indices are not sorted by
    increasing owning block column (some column index is owned by a
    smaller block column than an earlier one) raises [ExcInternalError]. *)
Theorem bulk_unsorted_raises_internal_error m row_indices col_indices values
    col_pairs :
  resolved (BlockSparseMatrix.column_block_indices m) col_indices col_pairs ->
  unsorted_by_block col_pairs ->
  BlockSparseMatrix.set m row_indices col_indices values = Raise ExcInternalError /\
  BlockSparseMatrix.add m row_indices col_indices values = Raise ExcInternalError.
Proof.
  intros Hres Hunsorted.
  unfold BlockSparseMatrix.set, BlockSparseMatrix.add, BlockSparseMatrix.bulk.
  rewrite (column_walk_unsorted m col_indices col_pairs Hres Hunsorted).
  split; reflexivity.
Qed.

(** C5. On a matrix without block columns every bulk [set] and [add]
    writes [block_col_indices[0]] past the end of the vector; on a matrix
    with at least one block column no access to a scratch vector is out
    of bounds, whatever the arguments. *)
Theorem bulk_scratch_bounds o m row_indices col_indices values :
  (BlockSparseMatrix.n_block_cols m = 0 ->
   BlockSparseMatrix.bulk o m row_indices col_indices values =
   Undefined block_col_indices_array) /\
  (0 < BlockSparseMatrix.n_block_cols m ->
   scratch_in_bounds
     (BlockSparseMatrix.bulk o m row_indices col_indices values) = true).
Proof.
  split.
  - intros Hz. unfold BlockSparseMatrix.bulk.
    rewrite (column_walk_no_block_cols m col_indices Hz). reflexivity.
  - intros Hpos. unfold BlockSparseMatrix.bulk.
    apply scratch_in_bounds_bind; [apply column_walk_in_bounds, Hpos |].
    intros sc Hwalk.
    destruct (column_walk_Ok m col_indices sc Hwalk)
      as (_ & col_pairs & _ & _ & Hpart).
    apply scratch_in_bounds_bind; [| reflexivity].
    apply (row_loop_in_bounds o _ _ col_pairs). exact Hpart.
Qed.

Context `{!RowWise T B}.

(** C1. For a matrix with at least one block column, row indices and
    column indices of the matrix, the column indices sorted by owning
    block column, and a row-major block of values, the bulk [set] ends
    with the same matrix as one single-element [set] for each entry of the
    block, row by row. *)
Theorem set_same_as_each_element m row_indices col_indices values
    row_pairs col_pairs :
  0 < BlockSparseMatrix.n_block_cols m ->
  resolved (BlockSparseMatrix.row_block_indices m) row_indices row_pairs ->
  resolved (BlockSparseMatrix.column_block_indices m) col_indices col_pairs ->
  sorted_by_block col_pairs ->
  length values = length row_indices * length col_indices ->
  exists m1 m2,
    BlockSparseMatrix.set m row_indices col_indices values = Ok m1 /\
    BlockSparseMatrix.each_element SetValues m row_indices col_indices values
      = Ok m2 /\
    BlockSparseMatrix.same_matrix m1 m2.
Proof.
  intros Hpos Hrows Hcols Hsorted Hlen.
  destruct (column_walk_sorted m col_indices col_pairs Hpos Hcols Hsorted)
    as (sc & Hwalk & Hpart).
  pose proof (resolved_length _ _ _ Hcols) as Hn.
  pose proof (resolved_length _ _ _ Hrows) as Hr.
  eexists. eexists. split; [| split].
  - unfold BlockSparseMatrix.set, BlockSparseMatrix.bulk.
    rewrite Hwalk. simpl. rewrite Hn.
    rewrite (row_loop_forwarded SetValues _ _ col_pairs sc values row_indices 0
               row_pairs _ Hpart Hrows) by (simpl; nia).
    reflexivity.
  - unfold BlockSparseMatrix.each_element.
    rewrite (each_row_entries SetValues values col_indices col_pairs
               row_indices row_pairs 0 m Hrows Hcols) by (simpl; nia).
    reflexivity.
  - split; [reflexivity |]. split; [reflexivity |].
    intros row col. unfold BlockSparseMatrix.block. simpl. rewrite Hn.
    apply (rows_agree SetValues (BlockSparseMatrix.n_block_cols m));
      [exact Hpart | simpl; nia | reflexivity].
Qed.

End BulkClaims.

(** ** The numeric vector *)


Section VectorFacts.

Context {N : Type} `{Number N}.

Implicit Types (v w : Vector.t N) (a : N).

Lemma sum_loop_spec (u : list N) k : forall i sum,
  i + k <= length u ->
  Vector.sum_loop u i k sum = Ok (foldl num_plus sum (take k (drop i u))).
Proof.
  induction k as [|k IH]; intros i sum Hlen; simpl.
  - reflexivity.
  - destruct (lookup_lt_is_Some_2 u i) as [x Ex]; [lia |].
    rewrite (proj2 (load_Ok val_array u i x) Ex). simpl.
    rewrite IH by lia. rewrite (drop_S _ _ _ Ex). reflexivity.
Qed.


Lemma length_new_array (memory : list N) n :
  length (Vector.new_array memory n) = n.
Proof.
  unfold Vector.new_array.
  rewrite length_take, length_app, length_replicate. lia.
Qed.

(** [clear] zeroes the components and keeps the size and the buffer. *)
Lemma clear_spec v :
  Vector.wf v ->
  Vector.size (Vector.clear v) = Vector.size v /\
  Vector.elements (Vector.clear v) = replicate (Vector.size v) num_zero /\
  Vector.wf (Vector.clear v).
Proof.
  intros [Hdim Hval]. unfold Vector.size, Vector.elements, Vector.wf, Vector.clear.
  simpl. split; [reflexivity |]. split.
  - rewrite take_app_length'; [reflexivity | symmetry; apply length_replicate].
  - split; [exact Hdim |].
    rewrite length_app, length_replicate, length_drop. lia.
Qed.

(** C7. Element access [V(i)] with [i] not below the size of [V] fails
    with [ExcIndexRange (i, 0, size)], raised by the call itself; with [i]
    below the size it returns component [i], and nothing is raised. *)
Theorem element_access_checks_index v i :
  Vector.wf v ->
  (Vector.size v <= i ->
   Vector.operator_call v i = Raise (ExcIndexRange i 0 (Vector.size v))) /\
  (i < Vector.size v ->
   exists x, Vector.elements v !! i = Some x /\ Vector.operator_call v i = Ok x).
Proof.
  intros [Hdim Hval]. unfold Vector.operator_call, Vector.size, Vector.elements.
  split; intros Hi.
  - rewrite bool_decide_eq_false_2 by lia. reflexivity.
  - rewrite bool_decide_eq_true_2 by lia. simpl.
    destruct (lookup_lt_is_Some_2 (Vector.val v) i) as [x Ex]; [lia |].
    exists x. rewrite lookup_take_lt by lia. split; [exact Ex |].
    apply load_Ok, Ex.
Qed.

(** C8. [mean_value ()] on a vector of size zero fails with
    [ExcEmptyVector]; on any other vector it returns the sum of the
    components divided by the size. *)
Theorem mean_value_of_elements v :
  Vector.wf v ->
  (Vector.size v = 0 -> Vector.mean_value v = Raise ExcEmptyVector) /\
  (0 < Vector.size v ->
   Vector.mean_value v =
   Ok (num_divide (foldl num_plus num_zero (Vector.elements v)) (num_of_size (Vector.size v)))).
Proof.
  intros [Hdim Hval]. unfold Vector.mean_value, Vector.size, Vector.elements.
  split; intros Hsize.
  - rewrite Hsize. reflexivity.
  - rewrite bool_decide_eq_false_2 by lia. simpl.
    rewrite sum_loop_spec by lia. rewrite drop_0. reflexivity.
Qed.

(** C9. [reinit (0)] followed by [reinit (n, false)] leaves a vector of
    size [n] whose components are all zero, whatever the vector and the
    allocated memory held before. *)
Theorem reinit_zero_then_n memory1 memory2 v n fast :
  Vector.size (Vector.reinit memory2 (Vector.reinit memory1 v 0 fast) n false) = n /\
  Vector.elements (Vector.reinit memory2 (Vector.reinit memory1 v 0 fast) n false) =
    replicate n num_zero /\
  Vector.wf (Vector.reinit memory2 (Vector.reinit memory1 v 0 fast) n false).
Proof.
  assert (Vector.reinit memory1 v 0 fast = Vector.Build 0 0 []) as -> by reflexivity.
  unfold Vector.reinit. case_bool_decide as Hn.
  - subst n. repeat split. simpl. lia.
  - rewrite bool_decide_eq_true_2 by (simpl; lia).
    apply (clear_spec (Vector.Build n n (Vector.new_array memory2 n))).
    split; simpl; [lia | apply length_new_array].
Qed.

Context `{!Exact N}.



End VectorFacts.

Section AddThenSubtract.

Context {N : Type} `{Number N}.

Implicit Types (v w : Vector.t N) (a : N).


End AddThenSubtract.


(** ** The claims at the example data *)

Lemma example_col_pairs_resolved :
  resolved example_columns example_col_indices example_col_pairs.
Proof. repeat constructor. Qed.

Lemma example_row_pairs_resolved :
  resolved example_rows example_row_indices example_row_pairs.
Proof. repeat constructor. Qed.

Lemma example_col_pairs_sorted : sorted_by_block example_col_pairs.
Proof. apply nondecreasing_sorted. reflexivity. Qed.

Lemma unsorted_col_pairs_unsorted : unsorted_by_block unsorted_col_pairs.
Proof. exists 0, 1, (2, 2), (0, 1). repeat split; simpl; lia. Qed.

(** The walk on the example: block column 1 owns nothing, and its entry of
    [block_col_indices] is the one the earlier call left. *)
Example column_walk_example :
  BlockSparseMatrix.column_walk (example_matrix (B := call_log TrilinosScalar) [])
    example_col_indices =
  Ok ([0; 7; 2], [2; 0; 2], [1; 0; 2; 0]).
Proof. reflexivity. Qed.

(** The calls the blocks of the example receive from a bulk [add]. *)
Example add_example :
  exists m',
    BlockSparseMatrix.add (example_matrix (B := call_log TrilinosScalar) [])
      example_row_indices example_col_indices example_values = Ok m' /\
    BlockSparseMatrix.block m' 1 0 = [Row AddValues 2 [1; 0] [1%float; 2%float]] /\
    BlockSparseMatrix.block m' 1 2 = [Row AddValues 2 [2; 0] [3%float; 4%float]] /\
    BlockSparseMatrix.block m' 0 0 = [Row AddValues 0 [1; 0] [5%float; 6%float]] /\
    BlockSparseMatrix.block m' 0 2 = [Row AddValues 0 [2; 0] [7%float; 8%float]] /\
    BlockSparseMatrix.block m' 0 1 = [] /\
    BlockSparseMatrix.block m' 1 1 = [].
Proof. eexists. split; [vm_compute; reflexivity |]. repeat split. Qed.

(** A bulk call on the matrix the default constructor leaves. *)
Example set_without_blocks :
  BlockSparseMatrix.set (empty_matrix (B := call_log TrilinosScalar) []) [] [] []
  = Undefined block_col_indices_array.
Proof. reflexivity. Qed.

Lemma set_same_as_each_element_example :
  0 < BlockSparseMatrix.n_block_cols (example_matrix (B := entry_log TrilinosScalar) []) /\
  length example_values = length example_row_indices * length example_col_indices /\
  exists m1 m2,
    BlockSparseMatrix.set (example_matrix (B := entry_log TrilinosScalar) [])
      example_row_indices example_col_indices example_values = Ok m1 /\
    BlockSparseMatrix.each_element SetValues
      (example_matrix (B := entry_log TrilinosScalar) [])
      example_row_indices example_col_indices example_values = Ok m2 /\
    BlockSparseMatrix.same_matrix m1 m2.
Proof.
  split; [vm_compute; lia |]. split; [reflexivity |].
  apply (set_same_as_each_element
           (example_matrix (B := entry_log TrilinosScalar) [])
           example_row_indices example_col_indices example_values
           example_row_pairs example_col_pairs).
  - vm_compute. lia.
  - exact example_row_pairs_resolved.
  - exact example_col_pairs_resolved.
  - exact example_col_pairs_sorted.
  - reflexivity.
Defined.

Lemma walk_partitions_example :
  0 < BlockSparseMatrix.n_block_cols (example_matrix (B := call_log TrilinosScalar) []) /\
  exists bci lrl lci,
    BlockSparseMatrix.column_walk (example_matrix (B := call_log TrilinosScalar) [])
      example_col_indices = Ok (bci, lrl, lci) /\
    lci = example_col_pairs.*2 /\
    sum_list (take 3 lrl) = 4.
Proof.
  split; [vm_compute; lia |].
  destruct (walk_partitions_sorted_columns
              (example_matrix (B := call_log TrilinosScalar) [])
              example_col_indices example_col_pairs)
    as (bci & lrl & lci & Hwalk & _ & _ & Hlci & Hsum).
  - vm_compute. lia.
  - exact example_col_pairs_resolved.
  - exact example_col_pairs_sorted.
  - exists bci, lrl, lci. split; [exact Hwalk |]. split; [exact Hlci | exact Hsum].
Defined.

Lemma bulk_forwards_example :
  length example_row_indices * length example_col_indices <= length example_values /\
  exists m',
    BlockSparseMatrix.bulk AddValues
      (example_matrix (B := call_log TrilinosScalar) [])
      example_row_indices example_col_indices example_values = Ok m' /\
    BlockSparseMatrix.sub_objects m' =
      foldl (forward AddValues) (fun _ _ => [])
        (forwarded_calls ([0; 7; 2], [2; 0; 2], [1; 0; 2; 0]) 3 4 0
           example_row_pairs example_values).
Proof.
  split; [vm_compute; lia |].
  destruct (bulk_forwards_one_call_per_run AddValues
              (example_matrix (B := call_log TrilinosScalar) [])
              example_row_indices example_col_indices example_values
              ([0; 7; 2], [2; 0; 2], [1; 0; 2; 0]) example_row_pairs)
    as (m' & Hbulk & Hgrid & _).
  - reflexivity.
  - exact example_row_pairs_resolved.
  - vm_compute. lia.
  - exists m'. split; [exact Hbulk | exact Hgrid].
Defined.

Lemma bulk_unsorted_example :
  BlockSparseMatrix.set (example_matrix (B := call_log TrilinosScalar) [])
    example_row_indices unsorted_col_indices example_values
  = Raise ExcInternalError /\
  BlockSparseMatrix.add (example_matrix (B := call_log TrilinosScalar) [])
    example_row_indices unsorted_col_indices example_values
  = Raise ExcInternalError.
Proof.
  apply (bulk_unsorted_raises_internal_error
           (example_matrix (B := call_log TrilinosScalar) [])
           example_row_indices unsorted_col_indices example_values
           unsorted_col_pairs).
  - repeat constructor.
  - exact unsorted_col_pairs_unsorted.
Defined.

Lemma example_vector_wf : Vector.wf example_vector.
Proof. split; simpl; lia. Qed.


Lemma element_access_example :
  Vector.operator_call example_vector 3 = Raise (ExcIndexRange 3 0 3) /\
  exists x, Vector.elements example_vector !! 1 = Some x /\
    Vector.operator_call example_vector 1 = Ok x.
Proof.
  split.
  - apply (element_access_checks_index example_vector 3 example_vector_wf).
    simpl. lia.
  - apply (element_access_checks_index example_vector 1 example_vector_wf).
    simpl. lia.
Defined.

Lemma mean_value_example :
  Vector.mean_value example_vector =
  Ok (num_divide (foldl num_plus num_zero (Vector.elements example_vector))
        (num_of_size (Vector.size example_vector))).
Proof.
  apply (mean_value_of_elements example_vector example_vector_wf).
  simpl. lia.
Defined.


(** The scenario of the specification: the vector [2.0, 2.0, 2.0] after
    [add (3.0, V2)] with [V2 = 1.0, 1.0, 1.0]. *)
Example add_scenario :
  Vector.add 3%float (Vector.Build 3 3 [1%float; 1%float; 1%float])
    (Vector.Build 3 3 [2%float; 2%float; 2%float])
  = Ok (Vector.Build 3 3 [5%float; 5%float; 5%float]).
Proof. reflexivity. Qed.


(** * Further properties of the bulk calls *)

(** ** The contents of the scratch vectors before a call *)

Section WalkTwice.

Variables (cbi : BlockIndices.t) (n_cols : nat).

Local Abbreviation n_block_cols := (BlockIndices.size cbi).

(** The tracked block column and the length of its run are those of the
    column indices walked so far. *)
Lemma walk_inv_current done w1 w2 :
  walk_inv n_block_cols n_cols done w1 ->
  walk_inv n_block_cols n_cols done w2 ->
  BlockSparseMatrix.current_block w1 = BlockSparseMatrix.current_block w2.
Proof.
  assert (Hcur : forall w, walk_inv n_block_cols n_cols done w ->
    BlockSparseMatrix.current_block w =
    match last done with Some p => p.1 | None => 0 end).
  { intros w Hinv. pose proof (inv_end _ _ _ _ Hinv) as Hend.
    destruct (decide (BlockSparseMatrix.row_length w = 0)) as [Hz | Hnz].
    - rewrite (inv_start _ _ _ _ Hinv Hz).
      rewrite Hz, (inv_start _ _ _ _ Hinv Hz) in Hend.
      assert (length done = 0) as Hlen.
      { destruct (decide (length done = 0)) as [|Hpos]; [assumption |].
        destruct (lookup_lt_is_Some_2 done 0) as [[b l] E]; [lia |].
        pose proof (inv_le _ _ _ _ Hinv _ _ E) as Hle.
        rewrite (inv_start _ _ _ _ Hinv Hz) in Hle. simpl in Hle.
        assert (b = 0) as -> by lia.
        pose proof (proj1 (inv_run_current _ _ _ _ Hinv 0)) as Hrun.
        rewrite (inv_start _ _ _ _ Hinv Hz), Hz in Hrun.
        specialize (Hrun (ex_intro _ l E)). lia. }
      destruct done; [reflexivity | discriminate].
    - destruct (proj2 (inv_run_current _ _ _ _ Hinv (length done - 1)))
        as [l El]; [lia |].
      rewrite last_lookup.
      replace (pred (length done)) with (length done - 1) by lia.
      rewrite El. reflexivity. }
  intros H1 H2. rewrite (Hcur _ H1), (Hcur _ H2). reflexivity.
Qed.

(** Two walks over the same column indices stop with the same exception
    or complete with the invariant for the same index pairs. *)
Lemma walk_loop_twice rest : forall done w1 w2,
  walk_inv n_block_cols n_cols done w1 ->
  walk_inv n_block_cols n_cols done w2 ->
  length done + length rest <= n_cols ->
  (exists w1' w2' pairs,
     BlockSparseMatrix.walk_loop cbi (length done) rest w1 = Ok w1' /\
     BlockSparseMatrix.walk_loop cbi (length done) rest w2 = Ok w2' /\
     resolved cbi rest pairs /\
     walk_inv n_block_cols n_cols (done ++ pairs) w1' /\
     walk_inv n_block_cols n_cols (done ++ pairs) w2') \/
  (exists e,
     BlockSparseMatrix.walk_loop cbi (length done) rest w1 = Raise e /\
     BlockSparseMatrix.walk_loop cbi (length done) rest w2 = Raise e).
Proof.
  induction rest as [|col rest IH]; intros done w1 w2 Hinv1 Hinv2 Hlen;
    simpl in *.
  - left. exists w1, w2, []. rewrite app_nil_r.
    split; [reflexivity |]. split; [reflexivity |].
    split; [constructor | split; assumption].
  - pose proof (walk_inv_current done w1 w2 Hinv1 Hinv2) as Hcur.
    destruct (global_to_local_cases cbi col) as [[p Ep] | [e Ee]].
    + destruct (decide (p.1 < BlockSparseMatrix.current_block w1)) as [Hlt | Hge].
      * right. exists ExcInternalError.
        rewrite (walk_step_unsorted cbi n_cols done w1 col p) by (auto; lia).
        rewrite (walk_step_unsorted cbi n_cols done w2 col p) by (auto; lia).
        split; reflexivity.
      * destruct (walk_step_sorted cbi n_cols done w1 col p Hinv1)
          as (w1' & -> & Hinv1'); [lia | exact Ep | lia |].
        destruct (walk_step_sorted cbi n_cols done w2 col p Hinv2)
          as (w2' & -> & Hinv2'); [lia | exact Ep | lia |].
        simpl.
        replace (S (length done)) with (length (done ++ [p]))
          by (rewrite length_app; simpl; lia).
        destruct (IH (done ++ [p]) w1' w2' Hinv1' Hinv2')
          as [(v1 & v2 & pairs & H1 & H2 & Hres & Hi1 & Hi2) | (e & H1 & H2)].
        -- rewrite length_app. simpl. lia.
        -- left. exists v1, v2, (p :: pairs).
           replace (done ++ p :: pairs) with ((done ++ [p]) ++ pairs)
             by (rewrite <- app_assoc; reflexivity).
           split; [exact H1 |]. split; [exact H2 |].
           split; [constructor; assumption | split; assumption].
        -- right. exists e. split; assumption.
    + right. exists e.
      rewrite !(walk_step_unresolved cbi _ _ _ _ Ee). split; reflexivity.
Qed.

End WalkTwice.

(** Two partitions of the same index pairs agree on the run lengths, on
    the local column indices, and on where each run of non-zero length
    begins. *)
Lemma partitioned_agree n_block_cols pairs sc1 sc2 :
  partitioned n_block_cols pairs sc1 ->
  partitioned n_block_cols pairs sc2 ->
  sc1.1.2 = sc2.1.2 /\ sc1.2 = sc2.2 /\
  forall b, get sc1.1.2 b <> 0 -> get sc1.1.1 b = get sc2.1.1 b.
Proof.
  intros H1 H2.
  assert (Hlrl : sc1.1.2 = sc2.1.2).
  { apply (list_eq_same_length _ _ n_block_cols);
      [apply (part_local_row_length _ _ _ H2) |
       apply (part_local_row_length _ _ _ H1) |].
    intros b x y Hb Ex Ey.
    rewrite <- (get_lookup _ _ _ Ex), <- (get_lookup _ _ _ Ey).
    rewrite (part_owned _ _ _ H1 b Hb), (part_owned _ _ _ H2 b Hb).
    reflexivity. }
  split; [exact Hlrl |]. split.
  - rewrite (part_local_col_indices _ _ _ H1), (part_local_col_indices _ _ _ H2).
    reflexivity.
  - intros b Hnz.
    assert (Hle : forall sc sc', partitioned n_block_cols pairs sc ->
      partitioned n_block_cols pairs sc' -> get sc.1.2 b <> 0 ->
      get sc'.1.1 b <= get sc.1.1 b).
    { intros sc sc' Hp Hp' Hlen.
      destruct (proj2 (part_run _ _ _ Hp b (get sc.1.1 b))) as [l El]; [lia |].
      pose proof (proj1 (part_run _ _ _ Hp' b (get sc.1.1 b)) (ex_intro _ l El)).
      lia. }
    pose proof (Hle sc1 sc2 H1 H2 Hnz).
    rewrite Hlrl in Hnz. pose proof (Hle sc2 sc1 H2 H1 Hnz). lia.
Qed.

(** ** What the walk leaves in [block_col_indices] *)

(** The walk writes [block_col_indices] only at the block column of a
    column index, and never at entry 0 after the first statement. *)
Lemma walk_step_block_col_indices cbi j col w w' b :
  BlockSparseMatrix.walk_step cbi j col w = Ok w' ->
  b = 0 \/ (forall p, BlockIndices.global_to_local cbi col = Ok p -> p.1 <> b) ->
  get (BlockSparseMatrix.w_block_col_indices w') b =
  get (BlockSparseMatrix.w_block_col_indices w) b.
Proof.
  unfold BlockSparseMatrix.walk_step. intros Hstep Hb.
  apply bind_Ok in Hstep as (p & Ep & Hstep).
  apply bind_Ok in Hstep as (lci & _ & Hstep).
  apply bind_Ok in Hstep as (w1 & Hw1 & Hstep).
  apply bind_Ok in Hstep as (u & _ & Hstep).
  injection Hstep as <-. simpl.
  case_bool_decide as Hlt.
  - apply bind_Ok in Hw1 as (lrl & _ & Hw1).
    apply bind_Ok in Hw1 as (bci & Hbci & Hw1).
    injection Hw1 as <-. simpl.
    apply store_Ok in Hbci as [_ ->].
    apply get_insert_ne.
    destruct Hb as [-> | Hb]; [lia | exact (Hb p Ep)].
  - injection Hw1 as <-. reflexivity.
Qed.

Lemma walk_loop_block_col_indices cbi b cols : forall j w w',
  BlockSparseMatrix.walk_loop cbi j cols w = Ok w' ->
  b = 0 \/
  (forall col p, col ∈ cols -> BlockIndices.global_to_local cbi col = Ok p ->
     p.1 <> b) ->
  get (BlockSparseMatrix.w_block_col_indices w') b =
  get (BlockSparseMatrix.w_block_col_indices w) b.
Proof.
  induction cols as [|col cols IH]; intros j w w' Hloop Hb; simpl in Hloop.
  - injection Hloop as <-. reflexivity.
  - apply bind_Ok in Hloop as (w1 & Hstep & Hloop).
    rewrite (IH _ _ _ Hloop).
    + apply (walk_step_block_col_indices _ _ _ _ _ _ Hstep).
      destruct Hb as [-> | Hb]; [left; reflexivity | right].
      intros p. apply Hb. left.
    + destruct Hb as [-> | Hb]; [left; reflexivity | right].
      intros c p Hc. apply Hb. right. exact Hc.
Qed.

Lemma owned_zero b (pairs : list (nat * nat)) q :
  owned b pairs = 0 -> q ∈ pairs -> q.1 <> b.
Proof.
  unfold owned. intros Hz Hq Eq.
  assert (q ∈ filter (fun p => p.1 = b) pairs) as Hin
    by (apply list_elem_of_filter; split; assumption).
  destruct (filter (fun p => p.1 = b) pairs); [inversion Hin | discriminate].
Qed.

Lemma resolved_elem_of bi indices pairs i p :
  resolved bi indices pairs -> i ∈ indices ->
  BlockIndices.global_to_local bi i = Ok p -> p ∈ pairs.
Proof.
  induction 1 as [|i' p' indices pairs Ei _ IH]; intros Hi Ep.
  - inversion Hi.
  - apply elem_of_cons in Hi as [-> | Hi].
    + rewrite Ei in Ep. injection Ep as <-. left.
    + right. apply IH; assumption.
Qed.

Section BlockColIndices.

Context {B : Type}.

Implicit Types (m : BlockSparseMatrix.t B) (cols : list nat).

(** After a walk that completed, [block_col_indices] has one entry for
    each block column, entry 0 is 0, and the entry of every other block
    column that owns no column index is what the vector held before. *)
Lemma column_walk_block_col_indices m cols sc :
  BlockSparseMatrix.column_walk m cols = Ok sc ->
  length sc.1.1 = BlockSparseMatrix.n_block_cols m /\
  get sc.1.1 0 = 0 /\
  forall b, 0 < b -> get sc.1.2 b = 0 ->
    get sc.1.1 b =
    get (resize (BlockSparseMatrix.n_block_cols m)
           (BlockSparseMatrix.block_col_indices m)) b.
Proof.
  intros Hwalk.
  destruct (column_walk_Ok m cols sc Hwalk) as (Hpos & pairs & Hres & _ & Hpart).
  pose proof (part_block_col_indices _ _ _ Hpart) as Hlen.
  split; [exact Hlen |].
  unfold BlockSparseMatrix.column_walk in Hwalk.
  rewrite clear_row_length_spec in Hwalk by (rewrite length_resize; lia).
  simpl in Hwalk.
  rewrite (store_lt block_col_indices_array) in Hwalk
    by (rewrite length_resize; lia).
  simpl in Hwalk.
  apply bind_Ok in Hwalk as (w & Hloop & Hwalk).
  apply bind_Ok in Hwalk as (lrl & _ & Hwalk).
  apply bind_Ok in Hwalk as (u & _ & Hwalk).
  apply bind_Ok in Hwalk as (n & _ & Hwalk).
  apply bind_Ok in Hwalk as (u' & _ & Hwalk).
  injection Hwalk as <-. simpl in *.
  split.
  - rewrite (walk_loop_block_col_indices _ 0 _ _ _ _ Hloop) by (left; reflexivity).
    simpl. apply get_insert_eq. rewrite length_resize. exact Hpos.
  - intros b Hb Hz.
    destruct (decide (b < BlockSparseMatrix.n_block_cols m)) as [Hlt | Hge].
    + rewrite (walk_loop_block_col_indices _ b _ _ _ _ Hloop).
      * simpl. apply get_insert_ne. lia.
      * right. intros col p Hcol Ep.
        apply (owned_zero b pairs).
        -- rewrite <- (part_owned _ _ _ Hpart b Hlt). exact Hz.
        -- exact (resolved_elem_of _ _ _ _ _ Hres Hcol Ep).
    + rewrite !get_ge by (rewrite ?length_resize; lia). reflexivity.
Qed.

End BlockColIndices.

(** ** The result of a call *)

Section ScratchBefore.

Context {T B : Type} `{SparseMatrix T B}.

Implicit Types (m : BlockSparseMatrix.t B) (values : list T)
  (grid : nat -> nat -> B) (sc : BlockSparseMatrix.scratch).

(** The loops over the rows read [block_col_indices] only where the run
    has a non-zero length. *)
Lemma block_col_loop_agree o bci1 bci2 lrl lci n_cols i row_index values k :
  forall block_col grid,
  block_col + k <= length bci1 -> length bci1 = length bci2 ->
  length lrl = length bci1 ->
  (forall b, get lrl b <> 0 -> get bci1 b = get bci2 b) ->
  BlockSparseMatrix.block_col_loop o (bci1, lrl, lci) n_cols i row_index values
    block_col k grid =
  BlockSparseMatrix.block_col_loop o (bci2, lrl, lci) n_cols i row_index values
    block_col k grid.
Proof.
  induction k as [|k IH]; intros block_col grid Hk Hlen Hlrl Hbci; simpl.
  - reflexivity.
  - rewrite (load_get local_row_length_array) by lia. simpl.
    case_bool_decide as Hz.
    + apply IH; auto; lia.
    + rewrite !(load_get block_col_indices_array) by lia. simpl.
      rewrite <- (Hbci block_col Hz).
      destruct (slice local_col_indices_array lci _ _); simpl; [| reflexivity ..].
      destruct (slice values_array values _ _); simpl; [| reflexivity ..].
      apply IH; auto; lia.
Qed.

Lemma row_loop_agree o rbi bci1 bci2 lrl lci n_cols values rows :
  forall i grid,
  length bci1 = length bci2 -> length lrl = length bci1 ->
  (forall b, get lrl b <> 0 -> get bci1 b = get bci2 b) ->
  BlockSparseMatrix.row_loop o rbi (length bci1) (bci1, lrl, lci) n_cols i rows
    values grid =
  BlockSparseMatrix.row_loop o rbi (length bci1) (bci2, lrl, lci) n_cols i rows
    values grid.
Proof.
  induction rows as [|row rows IH]; intros i grid Hlen Hlrl Hbci; simpl.
  - reflexivity.
  - destruct (BlockIndices.global_to_local rbi row); simpl; [| reflexivity ..].
    rewrite (block_col_loop_agree o bci1 bci2) by (auto; lia).
    destruct (BlockSparseMatrix.block_col_loop o (bci2, lrl, lci) _ _ _ _ _ _ _);
      simpl; [| reflexivity ..].
    apply IH; auto.
Qed.

(** The result of a bulk call does not depend on what the scratch vectors
    held before the call: the same exception, or the same blocks, run
    lengths and local column indices. *)
Lemma bulk_scratch_same_result o m bci lrl lci row_indices col_indices values :
  same_result
    (BlockSparseMatrix.bulk o m row_indices col_indices values)
    (BlockSparseMatrix.bulk o (with_scratch m bci lrl lci)
       row_indices col_indices values).
Proof.
  destruct (decide (BlockSparseMatrix.n_block_cols m = 0)) as [Hz | Hnz].
  { unfold BlockSparseMatrix.bulk.
    rewrite (column_walk_no_block_cols m col_indices Hz).
    rewrite (column_walk_no_block_cols (with_scratch m bci lrl lci) col_indices Hz).
    reflexivity. }
  assert (0 < BlockSparseMatrix.n_block_cols m) as Hpos by lia.
  destruct (walk_loop_twice (BlockSparseMatrix.column_block_indices m)
              (length col_indices) col_indices []
              _ _ (walk_inv_start m col_indices Hpos)
              (walk_inv_start (with_scratch m bci lrl lci) col_indices Hpos))
    as [(w1 & w2 & pairs & H1 & H2 & Hres & Hi1 & Hi2) | (e & H1 & H2)];
    [simpl; lia | |].
  - pose proof (resolved_length _ _ _ Hres) as Hn.
    destruct (column_walk_loop_Ok m col_indices pairs w1 Hpos H1 Hi1)
      as ([[bci1 lrl1] lci1] & Hw1 & Hp1); [lia |].
    destruct (column_walk_loop_Ok (with_scratch m bci lrl lci) col_indices
                pairs w2 Hpos H2 Hi2)
      as ([[bci2 lrl2] lci2] & Hw2 & Hp2); [lia |].
    destruct (partitioned_agree _ _ _ _ Hp1 Hp2) as (Hlrl & Hlci & Hbci).
    simpl in Hlrl, Hlci, Hbci. subst lrl2 lci2.
    pose proof (part_block_col_indices _ _ _ Hp1) as Hb1.
    pose proof (part_block_col_indices _ _ _ Hp2) as Hb2.
    pose proof (part_local_row_length _ _ _ Hp1) as Hl1.
    simpl in Hb1, Hb2, Hl1.
    unfold BlockSparseMatrix.bulk. rewrite Hw1, Hw2. simpl.
    change (BlockSparseMatrix.n_block_cols (with_scratch m bci lrl lci))
      with (BlockSparseMatrix.n_block_cols m) in *.
    rewrite <- Hb1.
    rewrite (row_loop_agree o _ bci1 bci2) by (auto; lia).
    destruct (BlockSparseMatrix.row_loop o _ _ (bci2, lrl1, lci1) _ _ _ _ _);
      simpl; [| reflexivity ..].
    repeat split.
  - unfold BlockSparseMatrix.bulk.
    rewrite (column_walk_loop_Raise m col_indices e Hpos H1).
    rewrite (column_walk_loop_Raise (with_scratch m bci lrl lci) col_indices e
               Hpos H2).
    reflexivity.
Qed.

(** X1. The result of a bulk [set] or [add] does not depend on what the
    scratch vectors held before the call: the same exception or the same
    array left, or the same blocks, run lengths and local column indices.
    After two such calls that completed, [block_col_indices] has one
    entry for each block column, entry 0 is 0, the entries of the block
    columns that own a column index are the same, and the entry of every
    other block column but the first is what the vector of that call held
    before, resized to the number of block columns. *)
Theorem bulk_whatever_scratch o m bci lrl lci row_indices col_indices values :
  same_result
    (BlockSparseMatrix.bulk o m row_indices col_indices values)
    (BlockSparseMatrix.bulk o (with_scratch m bci lrl lci)
       row_indices col_indices values) /\
  forall m1 m2,
    BlockSparseMatrix.bulk o m row_indices col_indices values = Ok m1 ->
    BlockSparseMatrix.bulk o (with_scratch m bci lrl lci)
      row_indices col_indices values = Ok m2 ->
    length (BlockSparseMatrix.block_col_indices m1) =
      BlockSparseMatrix.n_block_cols m /\
    length (BlockSparseMatrix.block_col_indices m2) =
      BlockSparseMatrix.n_block_cols m /\
    get (BlockSparseMatrix.block_col_indices m1) 0 = 0 /\
    get (BlockSparseMatrix.block_col_indices m2) 0 = 0 /\
    (forall b, get (BlockSparseMatrix.local_row_length m1) b <> 0 ->
       get (BlockSparseMatrix.block_col_indices m1) b =
       get (BlockSparseMatrix.block_col_indices m2) b) /\
    (forall b, 0 < b -> get (BlockSparseMatrix.local_row_length m1) b = 0 ->
       get (BlockSparseMatrix.block_col_indices m1) b =
         get (resize (BlockSparseMatrix.n_block_cols m)
                (BlockSparseMatrix.block_col_indices m)) b /\
       get (BlockSparseMatrix.block_col_indices m2) b =
         get (resize (BlockSparseMatrix.n_block_cols m) bci) b).
Proof.
  split; [apply bulk_scratch_same_result |].
  intros m1 m2 H1 H2. unfold BlockSparseMatrix.bulk in H1, H2.
  apply bind_Ok in H1 as (sc1 & Hw1 & H1).
  apply bind_Ok in H1 as (grid1 & _ & H1). injection H1 as <-.
  apply bind_Ok in H2 as (sc2 & Hw2 & H2).
  apply bind_Ok in H2 as (grid2 & _ & H2). injection H2 as <-.
  cbn [BlockSparseMatrix.block_col_indices BlockSparseMatrix.local_row_length].
  destruct (column_walk_Ok _ _ _ Hw1) as (_ & pairs & Hres1 & _ & Hp1).
  destruct (column_walk_Ok _ _ _ Hw2) as (_ & pairs2 & Hres2 & _ & Hp2).
  rewrite <- (resolved_unique _ _ _ _ Hres1 Hres2) in Hp2.
  destruct (partitioned_agree _ _ _ _ Hp1 Hp2) as (Hlrl & _ & Hbci).
  destruct (column_walk_block_col_indices _ _ _ Hw1) as (Hlen1 & Hz1 & Hrest1).
  destruct (column_walk_block_col_indices _ _ _ Hw2) as (Hlen2 & Hz2 & Hrest2).
  split; [exact Hlen1 |]. split; [exact Hlen2 |].
  split; [exact Hz1 |]. split; [exact Hz2 |].
  split; [exact Hbci |].
  intros b Hb Hzero. split.
  - exact (Hrest1 b Hb Hzero).
  - apply (Hrest2 b Hb). rewrite <- Hlrl. exact Hzero.
Qed.

End ScratchBefore.

(** ** The value array and the bounds of a call *)

Section ValueArray.

Context {T B : Type} `{SparseMatrix T B}.

Implicit Types (m : BlockSparseMatrix.t B) (values : list T)
  (grid : nat -> nat -> B) (sc : BlockSparseMatrix.scratch).

(** After the walk, the loops over the rows fail only by reading past
    the end of the value array or on a row index. *)
Lemma block_col_loop_values o n_block_cols pairs sc n_cols i row_index values k :
  forall block_col grid,
  partitioned n_block_cols pairs sc ->
  block_col + k <= n_block_cols ->
  (exists grid', BlockSparseMatrix.block_col_loop o sc n_cols i row_index values
                   block_col k grid = Ok grid') \/
  BlockSparseMatrix.block_col_loop o sc n_cols i row_index values
    block_col k grid = Undefined values_array.
Proof.
  destruct sc as [[bci lrl] lci].
  induction k as [|k IH]; intros block_col grid Hpart Hk; simpl.
  - left. eauto.
  - pose proof (part_block_col_indices _ _ _ Hpart) as Hbci.
    pose proof (part_local_row_length _ _ _ Hpart) as Hlrl.
    pose proof (part_local_col_indices _ _ _ Hpart) as Hlci.
    pose proof (partitioned_run_in_bounds _ _ _ block_col Hpart) as Hrun.
    simpl in Hbci, Hlrl, Hlci, Hrun.
    rewrite (load_get local_row_length_array) by lia. simpl.
    case_bool_decide as Hlen.
    + apply IH; auto; lia.
    + rewrite (load_get block_col_indices_array) by lia. simpl.
      specialize (Hrun ltac:(lia) Hlen).
      assert (length lci = length pairs) as Hlen_lci
        by (rewrite Hlci; apply length_fmap).
      rewrite (slice_le local_col_indices_array) by lia.
      simpl. unfold slice. case_bool_decide; simpl; [| right; reflexivity].
      apply IH; auto; lia.
Qed.

Lemma row_loop_values o rbi n_block_cols pairs sc n_cols values rows :
  forall i row_pairs grid,
  partitioned n_block_cols pairs sc ->
  resolved rbi rows row_pairs ->
  (exists grid', BlockSparseMatrix.row_loop o rbi n_block_cols sc n_cols i rows
                   values grid = Ok grid') \/
  BlockSparseMatrix.row_loop o rbi n_block_cols sc n_cols i rows values grid
  = Undefined values_array.
Proof.
  induction rows as [|row rows IH]; intros i row_pairs grid Hpart Hres;
    inversion Hres as [|? rp ? row_pairs' Erp Hres']; subst; simpl.
  - left. eauto.
  - rewrite Erp. simpl.
    destruct (block_col_loop_values o n_block_cols pairs sc n_cols i rp values
                n_block_cols 0 grid Hpart) as [[grid1 ->] | ->]; [lia | |].
    + simpl. apply (IH _ row_pairs'); auto.
    + right. reflexivity.
Qed.

Lemma row_loop_in_range o rbi n_block_cols pairs sc values rows :
  forall i grid,
  partitioned n_block_cols pairs sc ->
  length pairs * (i + length rows) <= length values ->
  in_bounds
    (BlockSparseMatrix.row_loop o rbi n_block_cols sc (length pairs) i rows
       values grid) = true.
Proof.
  induction rows as [|row rows IH]; intros i grid Hpart Hlen; simpl in *.
  - reflexivity.
  - destruct (global_to_local_cases rbi row) as [[rp ->] | [e ->]]; simpl;
      [| reflexivity].
    rewrite (block_col_loop_forwarded o n_block_cols pairs) by (auto; nia).
    simpl. apply IH; [exact Hpart | nia].
Qed.

(** X2. On a matrix with at least one block column, a bulk [set] or [add]
    whose value array holds [n_rows * n_cols] values makes no access out
    of bounds, whatever the row and column indices: it completes or
    raises. *)
Theorem bulk_in_bounds o m row_indices col_indices values :
  0 < BlockSparseMatrix.n_block_cols m ->
  length row_indices * length col_indices <= length values ->
  in_bounds (BlockSparseMatrix.bulk o m row_indices col_indices values) = true.
Proof.
  intros Hpos Hlen. unfold BlockSparseMatrix.bulk.
  destruct (BlockSparseMatrix.column_walk m col_indices) as [sc | e | a] eqn:Hwalk;
    simpl.
  - destruct (column_walk_Ok m col_indices sc Hwalk)
      as (_ & col_pairs & Hcols & _ & Hpart).
    rewrite (resolved_length _ _ _ Hcols) in Hlen |- *.
    pose proof (row_loop_in_range o (BlockSparseMatrix.row_block_indices m)
                  _ col_pairs sc values row_indices 0
                  (BlockSparseMatrix.sub_objects m) Hpart) as Hrows.
    destruct (BlockSparseMatrix.row_loop _ _ _ _ _ _ _ _ _); simpl in *;
      [reflexivity | reflexivity | apply Hrows; nia].
  - reflexivity.
  - pose proof (column_walk_in_bounds m col_indices Hpos) as Hin.
    rewrite Hwalk in Hin.
    destruct (walk_loop_cases (BlockSparseMatrix.column_block_indices m)
                (length col_indices) col_indices []
                _ (walk_inv_start m col_indices Hpos))
      as [(w & pairs & Hres & Hloop & Hinv) | (e & Hloop & _)]; [simpl; lia | |].
    + destruct (column_walk_loop_Ok m col_indices pairs w Hpos Hloop Hinv)
        as (sc & Hw & _); [symmetry; eapply resolved_length, Hres |].
      congruence.
    + rewrite (column_walk_loop_Raise m col_indices e Hpos Hloop) in Hwalk.
      discriminate.
Qed.

(** X3. With row and column indices of the matrix, at least one of each,
    and the column indices sorted by block column, a bulk [set] or [add]
    completes if and only if the value array holds [n_rows * n_cols]
    values; with fewer it reads past the end of the value array. *)
Theorem bulk_completes_iff_values o m row_indices col_indices values
    row_pairs col_pairs :
  row_indices <> [] -> col_indices <> [] ->
  resolved (BlockSparseMatrix.row_block_indices m) row_indices row_pairs ->
  resolved (BlockSparseMatrix.column_block_indices m) col_indices col_pairs ->
  sorted_by_block col_pairs ->
  ((exists m', BlockSparseMatrix.bulk o m row_indices col_indices values = Ok m')
   <-> length row_indices * length col_indices <= length values) /\
  (length values < length row_indices * length col_indices ->
   BlockSparseMatrix.bulk o m row_indices col_indices values =
   Undefined values_array).
Proof.
  intros Hrows_ne Hcols_ne Hrows Hcols Hsorted.
  assert (0 < length row_indices) as Hnr by (destruct row_indices; simpl; [congruence | lia]).
  assert (0 < length col_indices) as Hnc by (destruct col_indices; simpl; [congruence | lia]).
  assert (0 < BlockSparseMatrix.n_block_cols m) as Hpos.
  { destruct col_indices as [|col ?]; [congruence |].
    inversion Hcols as [|? p ? ? Ep]; subst.
    apply global_to_local_block in Ep.
    unfold BlockSparseMatrix.n_block_cols. lia. }
  destruct (column_walk_sorted m col_indices col_pairs Hpos Hcols Hsorted)
    as (sc & Hwalk & Hpart).
  pose proof (resolved_length _ _ _ Hcols) as Hn.
  pose proof (part_local_row_length _ _ _ Hpart) as Hlrl.
  assert (Hiff : (exists m', BlockSparseMatrix.bulk o m row_indices col_indices
                               values = Ok m')
                 <-> length row_indices * length col_indices <= length values).
  { unfold BlockSparseMatrix.bulk. rewrite Hwalk. simpl. rewrite Hn. split.
    - intros [m' Hbulk]. apply bind_Ok in Hbulk as (grid & Hloop & _).
      rewrite <- Hlrl in Hloop, Hpart.
      destruct (row_loop_Ok _ _ _ _ _ _ _ _ _ Hpart Hloop) as [_ [Hz | Hle]]; nia.
    - intros Hlen.
      rewrite (row_loop_forwarded o _ _ col_pairs sc values row_indices 0
                 row_pairs _ Hpart Hrows) by (simpl; nia).
      simpl. eauto. }
  split; [exact Hiff |]. intros Hshort.
  destruct (row_loop_values o (BlockSparseMatrix.row_block_indices m)
              (BlockSparseMatrix.n_block_cols m) col_pairs sc
              (length col_indices) values row_indices 0 row_pairs
              (BlockSparseMatrix.sub_objects m) Hpart Hrows) as [[grid Hloop] | Hloop].
  - assert (exists m', BlockSparseMatrix.bulk o m row_indices col_indices values
                       = Ok m') as Hok.
    { unfold BlockSparseMatrix.bulk. rewrite Hwalk. simpl. rewrite Hloop.
      simpl. eauto. }
    apply Hiff in Hok. lia.
  - unfold BlockSparseMatrix.bulk. rewrite Hwalk. simpl. rewrite Hloop.
    reflexivity.
Qed.

(** ** The blocks a call leaves alone *)

Lemma forwarded_calls_rows sc n_block_cols n_cols values row_pairs : forall i,
  Forall (fun c : forwarded T => exists rp, rp ∈ row_pairs /\ to_block_row c = rp.1)
    (forwarded_calls sc n_block_cols n_cols i row_pairs values).
Proof.
  induction row_pairs as [|rp row_pairs IH]; intros i; simpl.
  - constructor.
  - apply Forall_app. split.
    + unfold forwarded_for_row. apply Forall_fmap, Forall_forall.
      intros bc _. exists rp. split; [left | reflexivity].
    + eapply Forall_impl; [apply IH |]. simpl.
      intros c (rp' & Hin & Hc). exists rp'. split; [right; exact Hin | exact Hc].
Qed.

(** X4. A bulk [set] or [add] that completes leaves the two index tables
    as they were, and every block whose block row holds none of the row
    indices or whose block column holds none of the column indices. *)
Theorem bulk_leaves_other_blocks o m row_indices col_indices values m' :
  BlockSparseMatrix.bulk o m row_indices col_indices values = Ok m' ->
  BlockSparseMatrix.row_block_indices m' = BlockSparseMatrix.row_block_indices m /\
  BlockSparseMatrix.column_block_indices m' =
    BlockSparseMatrix.column_block_indices m /\
  forall block_row block_col,
    (forall row p, row ∈ row_indices ->
       BlockIndices.global_to_local (BlockSparseMatrix.row_block_indices m) row
       = Ok p -> p.1 <> block_row) \/
    (forall col p, col ∈ col_indices ->
       BlockIndices.global_to_local (BlockSparseMatrix.column_block_indices m) col
       = Ok p -> p.1 <> block_col) ->
    BlockSparseMatrix.block m' block_row block_col =
    BlockSparseMatrix.block m block_row block_col.
Proof.
  intros Hbulk. unfold BlockSparseMatrix.bulk in Hbulk.
  apply bind_Ok in Hbulk as (sc & Hwalk & Hbulk).
  apply bind_Ok in Hbulk as (grid & Hloop & [= <-]).
  split; [reflexivity |]. split; [reflexivity |].
  destruct (column_walk_Ok m col_indices sc Hwalk)
    as (Hpos & col_pairs & Hcols & Hsorted & Hpart).
  pose proof (resolved_length _ _ _ Hcols) as Hn.
  pose proof (part_local_row_length _ _ _ Hpart) as Hlrl.
  rewrite Hn, <- Hlrl in Hloop. rewrite <- Hlrl in Hpart.
  destruct (row_loop_Ok _ _ _ _ _ _ _ _ _ Hpart Hloop) as [[row_pairs Hrows] Hbound].
  assert (length col_pairs * (0 + length row_indices) <= length values)
    as Hvalues by (destruct Hbound; simpl; lia).
  rewrite (row_loop_forwarded o _ _ col_pairs sc values row_indices 0
             row_pairs _ Hpart Hrows Hvalues) in Hloop.
  injection Hloop as <-.
  intros block_row block_col Hother. unfold BlockSparseMatrix.block. simpl.
  apply forward_other.
  pose proof (forwarded_calls_rows sc (length sc.1.2) (length col_pairs) values
                row_pairs 0) as Hfrom.
  pose proof (forwarded_calls_run (T := T) sc (length sc.1.2) (length col_pairs)
                values row_pairs 0) as Hrun.
  rewrite Forall_forall in Hfrom, Hrun. apply Forall_forall. intros c Hc.
  destruct Hother as [Hrow | Hcol].
  - left. destruct (Hfrom c Hc) as (rp & Hin & ->).
    apply list_elem_of_lookup in Hin as [k Ek].
    destruct (Forall2_lookup_r _ _ _ _ _ Hrows Ek) as (row & Erow & Hrp).
    apply (Hrow row rp); [| exact Hrp].
    apply list_elem_of_lookup. eauto.
  - right. specialize (Hrun c Hc).
    destruct (proj2 (part_run _ _ _ Hpart (to_block_col c)
                       (get sc.1.1 (to_block_col c)))) as [l El]; [lia |].
    destruct (Forall2_lookup_r _ _ _ _ _ Hcols El) as (col & Ecol & Hp).
    apply (Hcol col (to_block_col c, l)); [| exact Hp].
    apply list_elem_of_lookup. eauto.
Qed.

End ValueArray.

(** ** Indices that are not of the matrix *)

Lemma walk_loop_app cbi pre rest : forall j w,
  BlockSparseMatrix.walk_loop cbi j (pre ++ rest) w =
  BlockSparseMatrix.walk_loop cbi j pre w ≫=
    BlockSparseMatrix.walk_loop cbi (j + length pre) rest.
Proof.
  induction pre as [|col pre IH]; intros j w; simpl.
  - rewrite Nat.add_0_r. reflexivity.
  - destruct (BlockSparseMatrix.walk_step cbi j col w); simpl; [| reflexivity ..].
    rewrite IH. replace (S j + length pre) with (j + S (length pre)) by lia.
    reflexivity.
Qed.

Section NotOfTheMatrix.

Context {T B : Type} `{SparseMatrix T B}.

Implicit Types (m : BlockSparseMatrix.t B) (values : list T)
  (grid : nat -> nat -> B) (sc : BlockSparseMatrix.scratch).

Lemma row_loop_app o rbi n_block_cols sc n_cols values pre rest : forall i grid,
  BlockSparseMatrix.row_loop o rbi n_block_cols sc n_cols i (pre ++ rest) values
    grid =
  BlockSparseMatrix.row_loop o rbi n_block_cols sc n_cols i pre values grid ≫=
    BlockSparseMatrix.row_loop o rbi n_block_cols sc n_cols (i + length pre) rest
      values.
Proof.
  induction pre as [|row pre IH]; intros i grid; simpl.
  - rewrite Nat.add_0_r. reflexivity.
  - destruct (BlockIndices.global_to_local rbi row); simpl; [| reflexivity ..].
    destruct (BlockSparseMatrix.block_col_loop _ _ _ _ _ _ _ _ _); simpl;
      [| reflexivity ..].
    rewrite IH. replace (S i + length pre) with (i + S (length pre)) by lia.
    reflexivity.
Qed.

(** X5. A column index that [global_to_local] refuses, after column
    indices that are resolved and sorted by block column, makes the walk
    over the column indices raise the exception of [global_to_local], and
    the bulk [set] or [add] with it, whatever the row indices and the
    values are. *)
Theorem bulk_column_not_resolved o m row_indices before col after values
    col_pairs e :
  0 < BlockSparseMatrix.n_block_cols m ->
  resolved (BlockSparseMatrix.column_block_indices m) before col_pairs ->
  sorted_by_block col_pairs ->
  BlockIndices.global_to_local (BlockSparseMatrix.column_block_indices m) col
  = Raise e ->
  BlockSparseMatrix.column_walk m (before ++ col :: after) = Raise e /\
  BlockSparseMatrix.bulk o m row_indices (before ++ col :: after) values
  = Raise e.
Proof.
  intros Hpos Hres Hsorted Ecol.
  assert (Hwalk : BlockSparseMatrix.column_walk m (before ++ col :: after)
                  = Raise e).
  { apply (column_walk_loop_Raise m (before ++ col :: after) e Hpos).
    rewrite walk_loop_app.
    destruct (walk_loop_sorted (BlockSparseMatrix.column_block_indices m)
                (length (before ++ col :: after)) before col_pairs [] _
                (walk_inv_start m (before ++ col :: after) Hpos))
      as (w & Hloop & _); [rewrite length_app; simpl; lia | exact Hres
                          | exact Hsorted |].
    simpl in Hloop. rewrite Hloop. simpl.
    rewrite (walk_step_unresolved _ _ _ _ _ Ecol). reflexivity. }
  split; [exact Hwalk |].
  unfold BlockSparseMatrix.bulk. rewrite Hwalk. reflexivity.
Qed.

(** X6. After a walk that completed, a row index that [global_to_local]
    refuses makes a bulk [set] or [add] raise the exception of
    [global_to_local], the rows before it being resolved and their values
    in the value array. *)
Theorem bulk_row_not_resolved o m before row after col_indices values sc
    row_pairs e :
  BlockSparseMatrix.column_walk m col_indices = Ok sc ->
  resolved (BlockSparseMatrix.row_block_indices m) before row_pairs ->
  length before * length col_indices <= length values ->
  BlockIndices.global_to_local (BlockSparseMatrix.row_block_indices m) row
  = Raise e ->
  BlockSparseMatrix.bulk o m (before ++ row :: after) col_indices values
  = Raise e.
Proof.
  intros Hwalk Hres Hlen Erow. unfold BlockSparseMatrix.bulk.
  rewrite Hwalk. simpl.
  destruct (column_walk_Ok m col_indices sc Hwalk)
    as (_ & col_pairs & Hcols & _ & Hpart).
  rewrite (resolved_length _ _ _ Hcols) in Hlen |- *.
  rewrite row_loop_app.
  rewrite (row_loop_forwarded o _ _ col_pairs sc values before 0 row_pairs _
             Hpart Hres) by (simpl; nia).
  simpl. rewrite Erow. reflexivity.
Qed.

(** X7. Without column indices, a bulk [set] or [add] on a matrix with at
    least one block column still resolves every row index, and with row
    indices of the matrix it completes and leaves every block as it was,
    whatever the value array holds. *)
Theorem bulk_without_columns o m row_indices values row_pairs :
  0 < BlockSparseMatrix.n_block_cols m ->
  resolved (BlockSparseMatrix.row_block_indices m) row_indices row_pairs ->
  exists m',
    BlockSparseMatrix.bulk o m row_indices [] values = Ok m' /\
    BlockSparseMatrix.same_matrix m' m /\
    BlockSparseMatrix.local_row_length m' =
      replicate (BlockSparseMatrix.n_block_cols m) 0.
Proof.
  intros Hpos Hrows.
  assert (Hcols : resolved (BlockSparseMatrix.column_block_indices m) [] [])
    by constructor.
  assert (Hsorted : sorted_by_block []) by (intros k j p q _ [=]).
  destruct (column_walk_sorted m [] [] Hpos Hcols Hsorted) as (sc & Hwalk & Hpart).
  assert (Hzero : forall b, get sc.1.2 b = 0).
  { intros b. destruct (decide (b < BlockSparseMatrix.n_block_cols m)) as [Hb | Hb].
    - rewrite (part_owned _ _ _ Hpart b Hb). reflexivity.
    - apply get_ge. rewrite (part_local_row_length _ _ _ Hpart). lia. }
  eexists. split.
  - unfold BlockSparseMatrix.bulk. rewrite Hwalk. simpl.
    rewrite (row_loop_forwarded o _ _ [] sc values row_indices 0 row_pairs _
               Hpart Hrows) by (simpl; lia).
    reflexivity.
  - simpl. split.
    + split; [reflexivity |]. split; [reflexivity |].
      intros row col. unfold BlockSparseMatrix.block. simpl.
      apply forward_other.
      eapply Forall_impl; [apply forwarded_calls_run |].
      simpl. intros c Hc. rewrite Hzero in Hc. congruence.
    + apply (list_eq_same_length _ _ (BlockSparseMatrix.n_block_cols m)).
      * apply length_replicate.
      * apply (part_local_row_length _ _ _ Hpart).
      * intros b x y Hb Ex Ey.
        rewrite lookup_replicate_2 in Ey by exact Hb. injection Ey as <-.
        rewrite <- (get_lookup _ _ _ Ex). apply Hzero.
Qed.

(** With indices of the matrix, the column indices sorted by block column,
    and the values in the value array, a bulk call completes. *)
Lemma bulk_completes o m row_indices col_indices values row_pairs col_pairs :
  0 < BlockSparseMatrix.n_block_cols m ->
  resolved (BlockSparseMatrix.row_block_indices m) row_indices row_pairs ->
  resolved (BlockSparseMatrix.column_block_indices m) col_indices col_pairs ->
  sorted_by_block col_pairs ->
  length row_indices * length col_indices <= length values ->
  exists m', BlockSparseMatrix.bulk o m row_indices col_indices values = Ok m'.
Proof.
  intros Hpos Hrows Hcols Hsorted Hlen.
  destruct (column_walk_sorted m col_indices col_pairs Hpos Hcols Hsorted)
    as (sc & Hwalk & Hpart).
  unfold BlockSparseMatrix.bulk. rewrite Hwalk. simpl.
  rewrite (resolved_length _ _ _ Hcols) in Hlen |- *.
  rewrite (row_loop_forwarded o _ _ col_pairs sc values row_indices 0
             row_pairs _ Hpart Hrows) by (simpl; nia).
  simpl. eauto.
Qed.

Lemma resolved_block_col m col_indices col_pairs :
  col_indices <> [] ->
  resolved (BlockSparseMatrix.column_block_indices m) col_indices col_pairs ->
  0 < BlockSparseMatrix.n_block_cols m.
Proof.
  intros Hne Hcols. destruct col_indices as [|col ?]; [congruence |].
  inversion Hcols as [|? p ? ? Ep]; subst.
  apply global_to_local_block in Ep.
  unfold BlockSparseMatrix.n_block_cols. lia.
Qed.

Context `{!RowWise T B}.

(** X8. [set (row, col_indices, values)] and [add (row, col_indices,
    values)] raise [ExcDimensionMismatch] with the two sizes when the
    vectors differ in size; a call that completes ends with the same
    matrix as one single-element call for each column index and its
    value, from left to right; and with a row index and column indices
    of the matrix, at least one, sorted by block column, the call
    completes. *)
Theorem bulk_row_same_as_each_entry o m row col_indices values :
  (length col_indices <> length values ->
   BlockSparseMatrix.bulk_row o m row col_indices values =
   Raise (ExcDimensionMismatch (length col_indices) (length values))) /\
  (forall m1,
     BlockSparseMatrix.bulk_row o m row col_indices values = Ok m1 ->
     exists m2,
       BlockSparseMatrix.each_col o (length col_indices) 0 row 0 col_indices
         values m = Ok m2 /\
       BlockSparseMatrix.same_matrix m1 m2) /\
  (forall row_index col_pairs,
     col_indices <> [] -> length col_indices = length values ->
     BlockIndices.global_to_local (BlockSparseMatrix.row_block_indices m) row
     = Ok row_index ->
     resolved (BlockSparseMatrix.column_block_indices m) col_indices col_pairs ->
     sorted_by_block col_pairs ->
     exists m1, BlockSparseMatrix.bulk_row o m row col_indices values = Ok m1).
Proof.
  unfold BlockSparseMatrix.bulk_row. split; [| split].
  - intros Hne. rewrite (bool_decide_eq_false_2 (length _ = length _)) by exact Hne.
    reflexivity.
  - intros m1 Hbulk. apply bind_Ok in Hbulk as (_ & _ & Hbulk).
    case_bool_decide; [discriminate |].
    destruct (bulk_completes_same o m [row] col_indices values m1 Hbulk)
      as (m2 & Heach & Hsame).
    unfold BlockSparseMatrix.each_element in Heach. simpl in Heach.
    apply bind_Ok in Heach as (m2' & Hcol & [= <-]).
    exists m2'. split; assumption.
  - intros row_index col_pairs Hne Hlen Erow Hcols Hsorted.
    rewrite (bool_decide_eq_true_2 (length _ = length _)) by exact Hlen. simpl.
    rewrite (bool_decide_eq_false_2 (col_indices = [])) by exact Hne.
    apply (bulk_completes o m [row] col_indices values [row_index] col_pairs);
      [eapply resolved_block_col; eauto | repeat constructor; exact Erow
      | exact Hcols | exact Hsorted | simpl; lia].
Qed.

(** X9. [set (row_indices, col_indices, full_matrix)] and its [add]
    raise [ExcDimensionMismatch] when the number of row indices is not
    [m ()], and when it is and the number of column indices is not [n ()];
    for a full matrix that holds its [m () * n ()] entries, a call that
    completes ends with the same matrix as one single-element call for
    each entry, row by row; and with as many row and column indices of the
    matrix as the full matrix has rows and columns, at least one of each,
    the column indices sorted by block column, the call completes. *)
Theorem bulk_matrix_same_as_each_element o m row_indices col_indices
    (values : FullMatrix T) :
  (length row_indices <> fm_m values ->
   BlockSparseMatrix.bulk_matrix o m row_indices col_indices values =
   Raise (ExcDimensionMismatch (length row_indices) (fm_m values))) /\
  (length row_indices = fm_m values -> length col_indices <> fm_n values ->
   BlockSparseMatrix.bulk_matrix o m row_indices col_indices values =
   Raise (ExcDimensionMismatch (length col_indices) (fm_n values))) /\
  (forall m1,
     BlockSparseMatrix.bulk_matrix o m row_indices col_indices values = Ok m1 ->
     exists m2,
       BlockSparseMatrix.each_element o m row_indices col_indices
         (fm_entries values) = Ok m2 /\
       BlockSparseMatrix.same_matrix m1 m2) /\
  (forall row_pairs col_pairs,
     fm_wf values ->
     row_indices <> [] -> col_indices <> [] ->
     length row_indices = fm_m values -> length col_indices = fm_n values ->
     resolved (BlockSparseMatrix.row_block_indices m) row_indices row_pairs ->
     resolved (BlockSparseMatrix.column_block_indices m) col_indices col_pairs ->
     sorted_by_block col_pairs ->
     exists m1,
       BlockSparseMatrix.bulk_matrix o m row_indices col_indices values = Ok m1).
Proof.
  unfold BlockSparseMatrix.bulk_matrix. split; [| split; [| split]].
  - intros Hne. rewrite (bool_decide_eq_false_2 (length row_indices = _)) by exact Hne.
    reflexivity.
  - intros Hm Hne.
    rewrite (bool_decide_eq_true_2 (length row_indices = _)) by exact Hm. simpl.
    rewrite (bool_decide_eq_false_2 (length col_indices = _)) by exact Hne.
    reflexivity.
  - intros m1 Hbulk. apply bind_Ok in Hbulk as (_ & _ & Hbulk).
    apply bind_Ok in Hbulk as (_ & _ & Hbulk).
    case_bool_decide; [discriminate |].
    apply (bulk_completes_same o m row_indices col_indices _ m1 Hbulk).
  - intros row_pairs col_pairs Hwf Hrne Hcne Hm Hn Hrows Hcols Hsorted.
    rewrite (bool_decide_eq_true_2 (length row_indices = _)) by exact Hm. simpl.
    rewrite (bool_decide_eq_true_2 (length col_indices = _)) by exact Hn. simpl.
    rewrite (bool_decide_eq_false_2 (_ \/ _)) by tauto.
    apply (bulk_completes o m row_indices col_indices _ row_pairs col_pairs);
      [eapply resolved_block_col; eauto | exact Hrows | exact Hcols
      | exact Hsorted |].
    unfold fm_wf in Hwf. rewrite Hwf, Hm, Hn. reflexivity.
Qed.

End NotOfTheMatrix.

(** ** Assigning to a component *)

Section Assign.

Context {N : Type}.

Implicit Types (v : Vector.t N) (x : N).

(** X10. The assignment [V(i) = x] with [i] below the size of [V] leaves a
    vector of the same size in which component [i] is [x] and every other
    component is as before; with [i] not below the size it raises
    [ExcIndexRange (i, 0, size)]. *)
Theorem assign_then_access v i x :
  Vector.wf v ->
  (Vector.size v <= i ->
   Vector.assign v i x = Raise (ExcIndexRange i 0 (Vector.size v))) /\
  (i < Vector.size v ->
   exists v',
     Vector.assign v i x = Ok v' /\
     Vector.wf v' /\
     Vector.size v' = Vector.size v /\
     Vector.operator_call v' i = Ok x /\
     forall j, j <> i -> Vector.operator_call v' j = Vector.operator_call v j).
Proof.
  intros [Hdim Hval]. unfold Vector.assign, Vector.size. split; intros Hi.
  - rewrite bool_decide_eq_false_2 by lia. reflexivity.
  - rewrite bool_decide_eq_true_2 by lia. simpl.
    rewrite store_lt by lia. simpl. eexists. split; [reflexivity |].
    unfold Vector.wf, Vector.operator_call. simpl.
    split; [split; [exact Hdim | rewrite length_insert; exact Hval] |].
    split; [reflexivity |]. split.
    + rewrite bool_decide_eq_true_2 by lia. simpl.
      apply load_Ok. apply list_lookup_insert_eq. lia.
    + intros j Hj. unfold load. rewrite list_lookup_insert_ne by lia.
      reflexivity.
Qed.

End Assign.

(** ** Bulk [add], and a matrix of one block *)

Lemma global_to_local_one_block size i :
  i < size ->
  BlockIndices.global_to_local (BlockIndices.Build [size]) i = Ok (0, i).
Proof.
  intros Hi. unfold BlockIndices.global_to_local. simpl.
  rewrite bool_decide_eq_true_2 by exact Hi. reflexivity.
Qed.

Lemma resolved_one_block size indices :
  Forall (fun i => i < size) indices ->
  resolved (BlockIndices.Build [size]) indices (pair 0 <$> indices).
Proof.
  induction 1 as [|i indices Hi _ IH]; simpl; constructor; auto.
  apply global_to_local_one_block, Hi.
Qed.

Lemma sorted_one_block (indices : list nat) :
  sorted_by_block (pair 0 <$> indices).
Proof.
  intros k j p q _ Ep Eq. rewrite list_lookup_fmap in Ep, Eq.
  destruct (indices !! k); [| discriminate].
  destruct (indices !! j); [| discriminate].
  simpl in *. injection Ep as <-. injection Eq as <-. reflexivity.
Qed.

Lemma owned_one_block (indices : list nat) :
  owned 0 (pair 0 <$> indices) = length indices.
Proof.
  unfold owned. induction indices as [|i indices IH]; [reflexivity |].
  rewrite fmap_cons, filter_cons_True by reflexivity.
  simpl. f_equal. exact IH.
Qed.

Section OneBlock.

Context {T B : Type} `{SparseMatrix T B}.

Implicit Types (m : BlockSparseMatrix.t B) (values : list T)
  (grid : nat -> nat -> B) (sc : BlockSparseMatrix.scratch).

Lemma forwarded_one_block o (col_indices : list nat) sc values row_indices :
  forall i grid,
  col_indices <> [] ->
  partitioned 1 (pair 0 <$> col_indices) sc ->
  foldl (forward o) grid
    (forwarded_calls sc 1 (length col_indices) i (pair 0 <$> row_indices) values)
  = whole_rows o (length col_indices) i row_indices col_indices values grid.
Proof.
  intros i grid Hne Hpart. revert i grid.
  assert (Hlen : get sc.1.2 0 = length col_indices).
  { rewrite (part_owned _ _ _ Hpart 0) by lia. apply owned_one_block. }
  assert (Hoff : get sc.1.1 0 = 0).
  { destruct col_indices as [|c cs]; [congruence |].
    pose proof (proj1 (part_run _ _ _ Hpart 0 0) (ex_intro _ c eq_refl)). lia. }
  assert (Hlci : sc.2 = col_indices).
  { rewrite (part_local_col_indices _ _ _ Hpart), <- list_fmap_compose.
    apply list_fmap_id. }
  assert (Hnz : get sc.1.2 0 <> 0).
  { rewrite Hlen. destruct col_indices; simpl; [congruence | lia]. }
  induction row_indices as [|row row_indices IH]; intros i grid; simpl.
  - reflexivity.
  - rewrite foldl_app, IH. f_equal.
    unfold forwarded_for_row. simpl.
    rewrite filter_cons_True by exact Hnz. rewrite filter_nil. simpl.
    unfold forward, forwarded_to. simpl.
    rewrite Hlen, Hoff, Hlci, Nat.add_0_r, drop_0, take_ge by lia.
    reflexivity.
Qed.

(** X12. On a matrix of one block, a bulk [set] or [add] with indices of
    the matrix, at least one column index, forwards every row whole to
    that block: one call for each row index, in their order, with the
    row index, all the column indices as they were given, and the
    [n_cols] values of the row. *)
Theorem bulk_one_block o n_rows n_cols (b : B) row_indices col_indices values :
  col_indices <> [] ->
  Forall (fun row => row < n_rows) row_indices ->
  Forall (fun col => col < n_cols) col_indices ->
  length row_indices * length col_indices <= length values ->
  exists m',
    BlockSparseMatrix.bulk o (one_block n_rows n_cols b) row_indices col_indices
      values = Ok m' /\
    BlockSparseMatrix.sub_objects m' =
      whole_rows o (length col_indices) 0 row_indices col_indices values
        (fun _ _ => b).
Proof.
  intros Hne Hrows Hcols Hlen.
  pose proof (resolved_one_block n_rows row_indices Hrows) as Hrres.
  pose proof (resolved_one_block n_cols col_indices Hcols) as Hcres.
  destruct (column_walk_sorted (one_block n_rows n_cols b) col_indices
              (pair 0 <$> col_indices))
    as (sc & Hwalk & Hpart);
    [vm_compute; lia | exact Hcres | apply sorted_one_block |].
  eexists. split.
  - unfold BlockSparseMatrix.bulk. rewrite Hwalk.
    change (BlockSparseMatrix.n_block_cols (one_block n_rows n_cols b)) with 1
      in *.
    cbn [mbind outcome_bind].
    replace (length col_indices) with (length (pair 0 <$> col_indices))
      by apply length_fmap.
    rewrite (row_loop_forwarded o _ 1 (pair 0 <$> col_indices) sc values
               row_indices 0 (pair 0 <$> row_indices) _ Hpart Hrres)
      by (rewrite length_fmap; simpl; nia).
    reflexivity.
  - simpl. rewrite length_fmap.
    apply forwarded_one_block; assumption.
Qed.

Context `{!RowWise T B}.

(** X11. A bulk [add] that completes, whatever its arguments, ends with
    the same matrix as one single-element [add] for each entry of the
    value block, row by row; and with indices of the matrix on at least
    one block column, the column indices sorted by block column and the
    values in the value array, it completes. *)
Theorem add_same_as_each_element m row_indices col_indices values :
  (forall m1,
     BlockSparseMatrix.add m row_indices col_indices values = Ok m1 ->
     exists m2,
       BlockSparseMatrix.each_element AddValues m row_indices col_indices values
       = Ok m2 /\
       BlockSparseMatrix.same_matrix m1 m2) /\
  (forall row_pairs col_pairs,
     0 < BlockSparseMatrix.n_block_cols m ->
     resolved (BlockSparseMatrix.row_block_indices m) row_indices row_pairs ->
     resolved (BlockSparseMatrix.column_block_indices m) col_indices col_pairs ->
     sorted_by_block col_pairs ->
     length row_indices * length col_indices <= length values ->
     exists m1, BlockSparseMatrix.add m row_indices col_indices values = Ok m1).
Proof.
  split.
  - intros m1 Hadd. exact (bulk_completes_same _ _ _ _ _ _ Hadd).
  - intros row_pairs col_pairs Hpos Hrows Hcols Hsorted Hlen.
    exact (bulk_completes AddValues m row_indices col_indices values
             row_pairs col_pairs Hpos Hrows Hcols Hsorted Hlen).
Qed.

End OneBlock.

(** ** The rows of a bulk call, in two calls *)

Lemma slice_drop {A} name (a : list A) d off len :
  len <> 0 ->
  slice name (drop d a) off len = slice name a (d + off) len.
Proof.
  intros Hlen. unfold slice. rewrite length_drop, drop_drop.
  repeat case_bool_decide; first [reflexivity | lia].
Qed.

Section RowsSplit.

Context {T B : Type} `{SparseMatrix T B}.

Implicit Types (m : BlockSparseMatrix.t B) (values : list T)
  (grid : nat -> nat -> B) (sc : BlockSparseMatrix.scratch).

Lemma block_col_loop_drop o sc n_cols i k row_index values count :
  forall block_col grid,
  BlockSparseMatrix.block_col_loop o sc n_cols i row_index
    (drop (n_cols * k) values) block_col count grid =
  BlockSparseMatrix.block_col_loop o sc n_cols (k + i) row_index values
    block_col count grid.
Proof.
  induction count as [|count IH]; intros block_col grid; simpl.
  - reflexivity.
  - destruct (load local_row_length_array sc.1.2 block_col) as [len | |];
      simpl; [| reflexivity ..].
    case_bool_decide as Hz; [apply IH |].
    destruct (load block_col_indices_array sc.1.1 block_col) as [off | |];
      simpl; [| reflexivity ..].
    destruct (slice local_col_indices_array sc.2 off len); simpl;
      [| reflexivity ..].
    rewrite (slice_drop values_array) by exact Hz.
    replace (n_cols * k + (n_cols * i + off)) with (n_cols * (k + i) + off)
      by lia.
    destruct (slice values_array values _ len); simpl; [| reflexivity ..].
    apply IH.
Qed.

Lemma row_loop_drop o rbi n_block_cols sc n_cols k values rows :
  forall i grid,
  BlockSparseMatrix.row_loop o rbi n_block_cols sc n_cols i rows
    (drop (n_cols * k) values) grid =
  BlockSparseMatrix.row_loop o rbi n_block_cols sc n_cols (k + i) rows values
    grid.
Proof.
  induction rows as [|row rows IH]; intros i grid; simpl.
  - reflexivity.
  - destruct (BlockIndices.global_to_local rbi row); simpl; [| reflexivity ..].
    rewrite block_col_loop_drop.
    destruct (BlockSparseMatrix.block_col_loop _ _ _ _ _ _ _ _ _); simpl;
      [| reflexivity ..].
    rewrite IH. replace (k + S i) with (S (k + i)) by lia. reflexivity.
Qed.

(** X13. A bulk [set] or [add] gives the same result as the call with the
    first row indices followed by the call with the remaining row indices
    and the values from row [length rows1] of the value block on: the
    same exception or out-of-bounds access, or the same blocks, run
    lengths and local column indices. *)
Theorem bulk_rows_in_two_calls o m rows1 rows2 col_indices values :
  same_result
    (BlockSparseMatrix.bulk o m (rows1 ++ rows2) col_indices values)
    (BlockSparseMatrix.bulk o m rows1 col_indices values ≫= fun m1 =>
       BlockSparseMatrix.bulk o m1 rows2 col_indices
         (drop (length rows1 * length col_indices) values)).
Proof.
  destruct (decide (BlockSparseMatrix.n_block_cols m = 0)) as [Hz | Hnz].
  { unfold BlockSparseMatrix.bulk.
    rewrite (column_walk_no_block_cols m col_indices Hz). simpl. reflexivity. }
  assert (0 < BlockSparseMatrix.n_block_cols m) as Hpos by lia.
  unfold BlockSparseMatrix.bulk.
  destruct (BlockSparseMatrix.column_walk m col_indices) as [sc | e | a] eqn:Hwalk;
    cbn [mbind outcome_bind]; [| simpl; reflexivity ..].
  rewrite row_loop_app.
  destruct (BlockSparseMatrix.row_loop o _ _ sc _ 0 rows1 values _)
    as [grid1 | e | a]; cbn [mbind outcome_bind]; [| simpl; reflexivity ..].
  set (m1 := BlockSparseMatrix.Build _ _ grid1 _ _ _).
  destruct (walk_loop_twice (BlockSparseMatrix.column_block_indices m)
              (length col_indices) col_indices []
              _ _ (walk_inv_start m col_indices Hpos)
              (walk_inv_start m1 col_indices Hpos))
    as [(w1 & w2 & pairs & H1 & H2 & Hres & Hi1 & Hi2) | (e & H1 & H2)];
    [simpl; lia | |].
  - pose proof (resolved_length _ _ _ Hres) as Hn.
    destruct (column_walk_loop_Ok m col_indices pairs w1 Hpos H1 Hi1)
      as ([[bci1 lrl1] lci1] & Hw1 & Hp1); [lia |].
    destruct (column_walk_loop_Ok m1 col_indices pairs w2 Hpos H2 Hi2)
      as ([[bci2 lrl2] lci2] & Hw2 & Hp2); [lia |].
    rewrite Hwalk in Hw1. injection Hw1 as ->.
    destruct (partitioned_agree _ _ _ _ Hp1 Hp2) as (Hlrl & Hlci & Hbci).
    simpl in Hlrl, Hlci, Hbci. subst lrl2 lci2.
    pose proof (part_block_col_indices _ _ _ Hp1) as Hb1.
    pose proof (part_block_col_indices _ _ _ Hp2) as Hb2.
    pose proof (part_local_row_length _ _ _ Hp1) as Hl1.
    simpl in Hb1, Hb2, Hl1.
    rewrite Hw2. cbn [mbind outcome_bind].
    change (BlockSparseMatrix.n_block_cols m1)
      with (BlockSparseMatrix.n_block_cols m) in *.
    change (BlockSparseMatrix.row_block_indices m1)
      with (BlockSparseMatrix.row_block_indices m).
    change (BlockSparseMatrix.column_block_indices m1)
      with (BlockSparseMatrix.column_block_indices m).
    change (BlockSparseMatrix.sub_objects m1) with grid1.
    rewrite (Nat.mul_comm (length rows1)), row_loop_drop, Nat.add_0_r.
    rewrite <- Hb1.
    rewrite (row_loop_agree o _ bci1 bci2) by (auto; lia).
    destruct (BlockSparseMatrix.row_loop o _ _ (bci2, lrl1, lci1) _ _ _ _ _);
      simpl; [| reflexivity ..].
    repeat split.
  - rewrite (column_walk_loop_Raise m col_indices e Hpos H1) in Hwalk.
    discriminate.
Qed.

End RowsSplit.

(** ** The further properties at the example data *)

Lemma bulk_in_bounds_example :
  0 < BlockSparseMatrix.n_block_cols (example_matrix (B := call_log TrilinosScalar) []) /\
  in_bounds
    (BlockSparseMatrix.bulk AddValues
       (example_matrix (B := call_log TrilinosScalar) [])
       example_row_indices example_col_indices example_values) = true.
Proof.
  split; [vm_compute; lia |].
  apply bulk_in_bounds; vm_compute; lia.
Defined.

Lemma bulk_completes_iff_values_example :
  length example_row_indices * length example_col_indices <= length example_values /\
  exists m',
    BlockSparseMatrix.bulk SetValues
      (example_matrix (B := call_log TrilinosScalar) [])
      example_row_indices example_col_indices example_values = Ok m'.
Proof.
  split; [vm_compute; lia |].
  apply (bulk_completes_iff_values SetValues
           (example_matrix (B := call_log TrilinosScalar) [])
           example_row_indices example_col_indices example_values
           example_row_pairs example_col_pairs).
  - discriminate.
  - discriminate.
  - exact example_row_pairs_resolved.
  - exact example_col_pairs_resolved.
  - exact example_col_pairs_sorted.
  - vm_compute. lia.
Defined.

(** No column index of the example lies in block column 1. *)
Lemma bulk_leaves_other_blocks_example :
  exists m',
    BlockSparseMatrix.bulk AddValues
      (example_matrix (B := call_log TrilinosScalar) [])
      example_row_indices example_col_indices example_values = Ok m' /\
    BlockSparseMatrix.block m' 0 1 = [].
Proof.
  destruct (BlockSparseMatrix.bulk AddValues
              (example_matrix (B := call_log TrilinosScalar) [])
              example_row_indices example_col_indices example_values)
    as [m' | e | a] eqn:Hbulk.
  - exists m'. split; [reflexivity |].
    destruct (bulk_leaves_other_blocks _ _ _ _ _ _ Hbulk) as (_ & _ & Hblocks).
    rewrite (Hblocks 0 1); [reflexivity |].
    right. intros col p Hcol Hp.
    repeat (apply elem_of_cons in Hcol as [-> | Hcol]);
      [injection Hp as <-; simpl; lia .. | inversion Hcol].
  - exfalso. vm_compute in Hbulk. discriminate.
  - exfalso. vm_compute in Hbulk. discriminate.
Defined.

Lemma bulk_column_not_resolved_example :
  0 < BlockSparseMatrix.n_block_cols (example_matrix (B := call_log TrilinosScalar) []) /\
  BlockSparseMatrix.column_walk
    (example_matrix (B := call_log TrilinosScalar) []) ([1] ++ 9 :: [4])
  = Raise (ExcIndexRange 9 0 5) /\
  BlockSparseMatrix.bulk SetValues
    (example_matrix (B := call_log TrilinosScalar) [])
    example_row_indices ([1] ++ 9 :: [4]) example_values
  = Raise (ExcIndexRange 9 0 5).
Proof.
  split; [vm_compute; lia |].
  apply (bulk_column_not_resolved SetValues
           (example_matrix (B := call_log TrilinosScalar) [])
           example_row_indices [1] 9 [4] example_values [(0, 1)]).
  - vm_compute. lia.
  - repeat constructor.
  - apply nondecreasing_sorted. reflexivity.
  - reflexivity.
Defined.

Lemma bulk_row_not_resolved_example :
  BlockSparseMatrix.bulk SetValues
    (example_matrix (B := call_log TrilinosScalar) [])
    ([4] ++ 7 :: [0]) example_col_indices example_values
  = Raise (ExcIndexRange 7 0 5).
Proof.
  apply (bulk_row_not_resolved SetValues
           (example_matrix (B := call_log TrilinosScalar) [])
           [4] 7 [0] example_col_indices example_values
           ([0; 7; 2], [2; 0; 2], [1; 0; 2; 0]) [(1, 2)]).
  - reflexivity.
  - repeat constructor.
  - vm_compute. lia.
  - reflexivity.
Defined.

Lemma bulk_without_columns_example :
  0 < BlockSparseMatrix.n_block_cols (example_matrix (B := call_log TrilinosScalar) []) /\
  exists m',
    BlockSparseMatrix.bulk AddValues
      (example_matrix (B := call_log TrilinosScalar) [])
      example_row_indices [] example_values = Ok m' /\
    BlockSparseMatrix.same_matrix m'
      (example_matrix (B := call_log TrilinosScalar) []) /\
    BlockSparseMatrix.local_row_length m' = [0; 0; 0].
Proof.
  split; [vm_compute; lia |].
  apply (bulk_without_columns AddValues
           (example_matrix (B := call_log TrilinosScalar) [])
           example_row_indices example_values example_row_pairs).
  - vm_compute. lia.
  - exact example_row_pairs_resolved.
Defined.

Lemma bulk_row_same_as_each_entry_example :
  exists m1 m2,
    BlockSparseMatrix.set_row (example_matrix (B := entry_log TrilinosScalar) [])
      4 example_col_indices example_row_values = Ok m1 /\
    BlockSparseMatrix.each_col SetValues 4 0 4 0 example_col_indices
      example_row_values (example_matrix (B := entry_log TrilinosScalar) [])
    = Ok m2 /\
    BlockSparseMatrix.same_matrix m1 m2.
Proof.
  destruct (bulk_row_same_as_each_entry SetValues
              (example_matrix (B := entry_log TrilinosScalar) [])
              4 example_col_indices example_row_values)
    as (_ & Hsame & Hcompletes).
  destruct (Hcompletes (1, 2) example_col_pairs) as [m1 Hm1].
  - discriminate.
  - reflexivity.
  - reflexivity.
  - exact example_col_pairs_resolved.
  - exact example_col_pairs_sorted.
  - destruct (Hsame m1 Hm1) as (m2 & Hm2 & Heq).
    exists m1, m2. split; [exact Hm1 |]. split; [exact Hm2 | exact Heq].
Defined.

Lemma bulk_matrix_same_as_each_element_example :
  fm_wf example_full_matrix /\
  exists m1 m2,
    BlockSparseMatrix.add_matrix (example_matrix (B := entry_log TrilinosScalar) [])
      example_row_indices example_col_indices example_full_matrix = Ok m1 /\
    BlockSparseMatrix.each_element AddValues
      (example_matrix (B := entry_log TrilinosScalar) [])
      example_row_indices example_col_indices example_values = Ok m2 /\
    BlockSparseMatrix.same_matrix m1 m2.
Proof.
  split; [reflexivity |].
  destruct (bulk_matrix_same_as_each_element AddValues
              (example_matrix (B := entry_log TrilinosScalar) [])
              example_row_indices example_col_indices example_full_matrix)
    as (_ & _ & Hsame & Hcompletes).
  destruct (Hcompletes example_row_pairs example_col_pairs) as [m1 Hm1].
  - reflexivity.
  - discriminate.
  - discriminate.
  - reflexivity.
  - reflexivity.
  - exact example_row_pairs_resolved.
  - exact example_col_pairs_resolved.
  - exact example_col_pairs_sorted.
  - destruct (Hsame m1 Hm1) as (m2 & Hm2 & Heq).
    exists m1, m2. split; [exact Hm1 |]. split; [exact Hm2 | exact Heq].
Defined.

Lemma assign_then_access_example :
  exists v',
    Vector.assign example_vector 1 5%Z = Ok v' /\
    Vector.wf v' /\
    Vector.size v' = Vector.size example_vector /\
    Vector.operator_call v' 1 = Ok 5%Z /\
    forall j, j <> 1 ->
      Vector.operator_call v' j = Vector.operator_call example_vector j.
Proof.
  apply (assign_then_access example_vector 1 5%Z example_vector_wf).
  simpl. lia.
Defined.

Lemma add_same_as_each_element_example :
  exists m1 m2,
    BlockSparseMatrix.add (example_matrix (B := entry_log TrilinosScalar) [])
      example_row_indices example_col_indices example_values = Ok m1 /\
    BlockSparseMatrix.each_element AddValues
      (example_matrix (B := entry_log TrilinosScalar) [])
      example_row_indices example_col_indices example_values = Ok m2 /\
    BlockSparseMatrix.same_matrix m1 m2.
Proof.
  destruct (add_same_as_each_element
              (example_matrix (B := entry_log TrilinosScalar) [])
              example_row_indices example_col_indices example_values)
    as (Hsame & Hcompletes).
  destruct (Hcompletes example_row_pairs example_col_pairs) as [m1 Hm1].
  - vm_compute. lia.
  - exact example_row_pairs_resolved.
  - exact example_col_pairs_resolved.
  - exact example_col_pairs_sorted.
  - vm_compute. lia.
  - destruct (Hsame m1 Hm1) as (m2 & Hm2 & Heq).
    exists m1, m2. split; [exact Hm1 |]. split; [exact Hm2 | exact Heq].
Defined.

Lemma bulk_one_block_example :
  exists m',
    BlockSparseMatrix.bulk SetValues
      (one_block (B := call_log TrilinosScalar) 2 3 [])
      [1; 0] [2; 0] example_row_values = Ok m' /\
    BlockSparseMatrix.sub_objects m' =
      whole_rows SetValues 2 0 [1; 0] [2; 0] example_row_values (fun _ _ => []).
Proof.
  apply (bulk_one_block SetValues 2 3 [] [1; 0] [2; 0] example_row_values).
  - discriminate.
  - repeat constructor.
  - repeat constructor.
  - vm_compute. lia.
Defined.
